(** * Label components of G2Plot: identity, drawing and animation

    A shallow embedding of [src/components/label/base.ts]: the label
    identity resolver [getLabelId], the drawing loop and the animation
    reconciliation of [renderInner], and the registry of label component
    constructors.

    Conventions of the embedding.
    - A JavaScript object used as a dictionary ([Record<string, T>]) is a
      [Dict]: its own properties and its prototype.  A read follows the
      prototype chain, so it finds the members of [Object.prototype]; a
      write to [__proto__] sets the prototype and adds no own property.
    - Data values are JavaScript primitives; numbers are restricted to
      integers of magnitude below 10^21, whose string form is the decimal
      numeral, and the fields read from a data record are own properties
      of it or absent.
    - The scene graph ([IGroup], [IShape]) is an external collaborator.  A
      group is the list of its children; a shape is addressed by its
      position in that list, which never changes because shapes are only
      appended.  A destroyed shape keeps its slot and is skipped by
      [findById].
    - Calls made to the scene graph and to the animation driver are
      recorded, in program order, in a list of [Call]s.
    - [clone(x)] and the spread [{...x}] copy a value and are the identity
      here.
    - [each] of [@antv/util] is taken by its contract, one call per own
      key of the object; it enumerates the keys in the order of
      [map_to_list], the property order of JavaScript is not modelled.
      The statements below speak of the calls about one identity and of
      membership in the log, which no enumeration order changes (see
      [loops_any_order_current] and [loops_any_order_outstanding]). *)

From Stdlib Require Import Ascii.
From stdpp Require Import gmap strings list fin_maps pretty.

Local Open Scope string_scope.
Local Open Scope list_scope.

#[local] Set Warnings "-clear-no-such-hyp".

(** ** JavaScript values *)

Inductive Value :=
| VUndefined
| VNull
| VBool (b : bool)
| VNum (n : Z)
| VStr (s : string).

Global Instance Value_eq_dec : EqDecision Value.
Proof. solve_decision. Defined.

(** String conversion, as performed by a template literal [`${v}`], of the
    values modelled (integers print as decimal numerals). *)
Definition ToString (v : Value) : string :=
  match v with
  | VUndefined => "undefined"
  | VNull => "null"
  | VBool true => "true"
  | VBool false => "false"
  | VNum n => pretty n
  | VStr s => s
  end.

(** A raw data record, [Datum = Record<string, any>]. *)
Abbreviation Datum := (gmap string Value).

(** Property read [origin[field]] of a field that the record owns or that
    is absent from it and from its prototype: an absent one reads
    [undefined]. *)
Definition getField (origin : Datum) (field : string) : Value :=
  default VUndefined (origin !! field).

(** Visual attributes of a text shape, [TextStyle]. *)
Abbreviation TextStyle := (gmap string Value).

(** Truthiness of a value, as tested by [if (v)]. *)
Definition ToBoolean (v : Value) : bool :=
  match v with
  | VUndefined | VNull => false
  | VBool b => b
  | VNum n => negb (Z.eqb n 0)
  | VStr s => negb (String.eqb s "")
  end.

(** ** JavaScript objects used as dictionaries *)

(** The names every object inherits from [Object.prototype]. *)
Definition objectPrototypeMembers : list string :=
  ["constructor"; "toString"; "toLocaleString"; "valueOf"; "hasOwnProperty";
   "isPrototypeOf"; "propertyIsEnumerable"; "__defineGetter__";
   "__defineSetter__"; "__lookupGetter__"; "__lookupSetter__"; "__proto__"].

(** An object created by [{}] and changed by [o[k] = v] and [delete o[k]]
    only, where every [v] is an object: its own properties, and its
    prototype, which is [Object.prototype] ([None]) until a write to
    [__proto__] replaces it.  Such an object never owns a property named
    [__proto__]. *)
Record Dict (V : Type) := mkDict {
  own : gmap string V;
  proto : option V;
  own_plain : own !! "__proto__" = None
}.

Arguments mkDict {V} _ _ _.
Arguments own {V} _.
Arguments proto {V} _.
Arguments own_plain {V} _.

(** The object [{}]. *)
Global Instance dict_empty {V : Type} : Empty (Dict V) :=
  mkDict ∅ None (lookup_empty "__proto__").

(** [d !! k] is the own property [k] of [d], if it has one. *)
Global Instance dict_lookup {V : Type} : Lookup string V (Dict V) :=
  λ k d, own d !! k.

(** [o[k] = v]: the inherited setter of [__proto__] replaces the prototype;
    any other key becomes an own property. *)
Definition dict_set {V : Type} (k : string) (v : V) (d : Dict V) : Dict V :=
  match decide (k = "__proto__") with
  | left _ => mkDict (own d) (Some v) (own_plain d)
  | right Hne =>
      mkDict (<[k := v]> (own d)) (proto d)
             (eq_trans (lookup_insert_ne (own d) k "__proto__" v Hne) (own_plain d))
  end.

(** [delete o[k]]: removes an own property, if there is one. *)
Definition dict_delete {V : Type} (k : string) (d : Dict V) : Dict V :=
  mkDict (delete k (own d)) (proto d)
         (proj2 (lookup_delete_None (own d) k "__proto__") (or_intror (own_plain d))).

(** The own properties of [d1] that [d2] does not own, under the prototype
    of [d1]. *)
Global Instance dict_difference {V : Type} : Difference (Dict V) :=
  λ d1 d2,
    mkDict (own d1 ∖ own d2) (proto d1)
           (proj2 (lookup_difference_None (own d1) (own d2) "__proto__")
                  (or_introl (own_plain d1))).

(** Folding over an object visits its own properties; this is what gives
    [map_to_list] and [size] on a [Dict]. *)
Global Instance dict_map_fold {V : Type} : MapFold string V (Dict V) :=
  λ B f b d, map_fold f b (own d).

(** The object literal [{ [k]: v }] with a plain key. *)
Global Instance dict_singleton {V : Type} : SingletonM string V (Dict V) :=
  λ k v, dict_set k v ∅.

(** The object built by assigning the entries of a list, last first. *)
Definition list_to_dict {V : Type} (l : list (string * V)) : Dict V :=
  foldr (λ kv d, dict_set kv.1 kv.2 d) ∅ l.

(** What a read on the prototype chain of a snapshot can find that is not
    a snapshot entry: an attribute of the object installed as prototype, or
    a member of [Object.prototype]. *)
Inductive Inherited :=
| InheritedValue (v : Value)
| InheritedBuiltin (name : string).

(** The result of the read [lastLabelsCfgMap[id]]. *)
Inductive Got :=
| GotAttrs (a : TextStyle)
| GotInherited (i : Inherited)
| GotUndefined.

(** Read of [name] on [Object.prototype]. *)
Definition readObjectPrototype (name : string) : Got :=
  if bool_decide (name ∈ objectPrototypeMembers)
  then GotInherited (InheritedBuiltin name) else GotUndefined.

(** The read [m[id]] on a snapshot map: an own entry; else, for
    [__proto__], the prototype itself; else what the prototype has under
    that name, the prototype being an attribute object or
    [Object.prototype]. *)
Definition readSnapshot (m : Dict TextStyle) (id : string) : Got :=
  match own m !! id with
  | Some a => GotAttrs a
  | None =>
      match proto m with
      | Some p =>
          if decide (id = "__proto__") then GotAttrs p
          else match p !! id with
               | Some v => GotInherited (InheritedValue v)
               | None => readObjectPrototype id
               end
      | None => readObjectPrototype id
      end
  end.

(** [if (x)] on the result of a read. *)
Definition truthy (x : Got) : bool :=
  match x with
  | GotAttrs _ => true
  | GotInherited (InheritedValue v) => ToBoolean v
  | GotInherited (InheritedBuiltin _) => true
  | GotUndefined => false
  end.

(** [MappingDatum]: only the raw record [_origin] is read by this file. *)
Record MappingDatum := mkMappingDatum { _origin : Datum }.

(** [model.mappingData] is either one datum or an array of them. *)
Inductive MappingData :=
| OneDatum (d : MappingDatum)
| DatumArray (l : list MappingDatum).

Record Element := mkElement { mappingData : MappingData }.

(** The part of [Geometry] this component consumes. *)
Record Geometry := mkGeometry {
  type : string;
  xScale_field : string;
  yScale_field : string;
  getElementId : MappingDatum → string;
  elements : list Element;
  animateOption : bool
}.

(** ** Identity resolver *)

Definition getLabelId (geometry : Geometry) (data : MappingDatum) : string :=
  let origin := _origin data in
  let labelId := getElementId geometry data in
  if String.eqb (type geometry) "line" || String.eqb (type geometry) "area" then
    labelId +:+ " " +:+ ToString (getField origin (xScale_field geometry))
  else if String.eqb (type geometry) "path" then
    labelId +:+ " " +:+ ToString (getField origin (xScale_field geometry))
            +:+ "-" +:+ ToString (getField origin (yScale_field geometry))
  else labelId.

(** ** Registry of label component constructors *)

Module Registry.
Section Registry.
(** [LabelComponentCtor] *)
Context {Ctor : Type}.

(** The module-level [LABEL_CONFIG_MAP], threaded explicitly. *)
Definition LABEL_CONFIG_MAP : Dict Ctor := ∅.

Definition registerLabelComponent (ty : string) (component : Ctor)
    (m : Dict Ctor) : Dict Ctor :=
  dict_set ty component m.

(** What the read [LABEL_CONFIG_MAP[type]] returns: a constructor (a
    registered one, or the one installed as prototype when the type is
    [__proto__]); the value of [c[name]] for the constructor [c] installed
    as prototype, which is left open (it is [undefined] when [c] has no
    such member); a member of [Object.prototype]; or [undefined]. *)
Inductive Found :=
| Component (c : Ctor)
| MemberOf (c : Ctor) (name : string)
| ObjectPrototypeMember (name : string)
| Undefined.

Definition getLabelComponent (ty : string) (m : Dict Ctor) : Found :=
  match own m !! ty with
  | Some c => Component c
  | None =>
      match proto m with
      | Some c => if decide (ty = "__proto__") then Component c else MemberOf c ty
      | None =>
          if bool_decide (ty ∈ objectPrototypeMembers)
          then ObjectPrototypeMember ty else Undefined
      end
  end.

(** A program's sequence of registrations, run from the initial map. *)
Definition registerAll (regs : list (string * Ctor)) (m : Dict Ctor) : Dict Ctor :=
  foldl (λ acc r, registerLabelComponent r.1 r.2 acc) m regs.
End Registry.
End Registry.

(** ** Scene graph (external collaborator, modelled from its contract) *)

Record Shape := mkShape {
  shape_type : string;
  shape_id : string;
  shape_name : string;
  attrs : TextStyle;
  origin : option MappingDatum;
  destroyed : bool
}.

(** A group is the list of its children; a handle is a position in it. *)
Abbreviation Group := (list Shape).

(** [group.addShape(type, cfg)]: appends a live shape, returns its handle. *)
Definition addShape (group : Group) (ty : string) (a : TextStyle)
    (id name : string) (o : option MappingDatum) : Group * nat :=
  (group ++ [mkShape ty id name a o false], length group).

Definition shape_is (id : string) (s : Shape) : bool :=
  negb (destroyed s) && String.eqb (shape_id s) id.

(** [group.findById(id)]: the first live child carrying [id], if any. *)
Fixpoint findById (group : Group) (id : string) : option nat :=
  match group with
  | [] => None
  | s :: rest => if shape_is id s then Some 0 else S <$> findById rest id
  end.

(** [shape.attr(o)]: assigns every attribute of [o], keeps the others. *)
Definition attr (o : TextStyle) (s : Shape) : Shape :=
  mkShape (shape_type s) (shape_id s) (shape_name s) (o ∪ attrs s)
          (origin s) (destroyed s).

(** [shape.attr(x)] for the result [x] of a read on a snapshot map: an
    attribute object is assigned; a function or [Object.prototype] has no
    enumerable property to assign, and a primitive makes the call a read,
    so the shape is left as it is. *)
Definition attrGot (x : Got) (s : Shape) : Shape :=
  match x with
  | GotAttrs o => attr o s
  | _ => s
  end.

(** [shape.attr()] on the child at a handle. *)
Definition getAttrs (group : Group) (shape : nat) : TextStyle :=
  from_option attrs ∅ (group !! shape).

(** ** Animation driver (external collaborator) *)

Record Coordinate := mkCoordinate { coord_type : string; isTransposed : bool }.

(** One transition spec, e.g. [{ animation: 'fade-in', duration: 450 }]. *)
Record AnimateSpec := mkAnimateSpec { animation : string; duration : Z }.

(** Result of [getDefaultAnimateCfg]: independently optional specs. *)
Record AnimateCfg := mkAnimateCfg {
  appear : option AnimateSpec;
  update : option AnimateSpec;
  leave : option AnimateSpec
}.

Inductive Phase := Appear | Update | Leave.

Global Instance Phase_eq_dec : EqDecision Phase.
Proof. solve_decision. Defined.

(** [get(animateCfg, key)] where [animateCfg] is an object or [false]. *)
Definition get (animateCfg : option AnimateCfg) (key : Phase) : option AnimateSpec :=
  match animateCfg with
  | None => None
  | Some cfg =>
      match key with
      | Appear => appear cfg
      | Update => update cfg
      | Leave => leave cfg
      end
  end.

(** The two [each] loops of the animation part of [renderInner]. *)
Inductive Loop := OverCurrent | OverOutstanding.

Global Instance Loop_eq_dec : EqDecision Loop.
Proof. solve_decision. Defined.

(** Calls issued by the animation part of [renderInner], in program order.
    [Visit] marks the entry of an [each] callback with the key it receives;
    [ShapeAttr] is [shape.attr(x)] with an attribute object and
    [ShapeAttrInherited] the same call with anything else a read can find;
    [DoAnimate] carries the key of [animateCfg] its spec was read from. *)
Inductive Call :=
| Visit (l : Loop) (id : string)
| ShapeAttr (shape : nat) (id : string) (a : TextStyle)
| ShapeAttrInherited (shape : nat) (id : string) (x : Inherited)
| AddShape (shape : nat) (s : Shape)
| DoAnimate (ph : Phase) (shape : nat) (id : string) (cfg : AnimateSpec)
            (toAttrs : option TextStyle) (coordinate : Coordinate).

(** The identity a call is about. *)
Definition call_id (c : Call) : string :=
  match c with
  | Visit _ id => id
  | ShapeAttr _ id _ => id
  | ShapeAttrInherited _ id _ => id
  | AddShape _ s => shape_id s
  | DoAnimate _ _ id _ _ _ => id
  end.

(** The shape a call acts on. *)
Definition call_shape (c : Call) : option nat :=
  match c with
  | Visit _ _ => None
  | ShapeAttr h _ _ => Some h
  | ShapeAttrInherited h _ _ => Some h
  | AddShape h _ => Some h
  | DoAnimate _ h _ _ _ _ => Some h
  end.

Definition is_animate (ph : Phase) (c : Call) : bool :=
  match c with
  | DoAnimate ph' _ _ _ _ _ => bool_decide (ph' = ph)
  | _ => false
  end.

Definition is_visit (l : Loop) (c : Call) : bool :=
  match c with
  | Visit l' _ => bool_decide (l' = l)
  | _ => false
  end.

Definition is_shape_attr (c : Call) : bool :=
  match c with
  | ShapeAttr _ _ _ | ShapeAttrInherited _ _ _ => true
  | _ => false
  end.

(** The log entry of [shape.attr(x)]. *)
Definition attrCall (shape : nat) (id : string) (x : Got) : list Call :=
  match x with
  | GotAttrs o => [ShapeAttr shape id o]
  | GotInherited i => [ShapeAttrInherited shape id i]
  | GotUndefined => []
  end.

Definition is_add_shape (c : Call) : bool :=
  match c with AddShape _ _ => true | _ => false end.

(** The calls of a log that are about identity [id], in order. *)
Definition calls_of (id : string) (log : list Call) : list Call :=
  filter (λ c, call_id c = id) log.

(** How many calls of a log about [id] satisfy [p]. *)
Definition count_calls (p : Call → bool) (id : string) (log : list Call) : nat :=
  length (filter (λ c, p c = true) (calls_of id log)).

(** [each(obj, f)] of [@antv/util] on an object: [f(value, key)] once per
    own key. *)
Definition each {A S : Type} (m : gmap string A) (f : S → string → A → S) (s : S) : S :=
  foldl (λ acc kv, f acc kv.1 kv.2) s (map_to_list m).

(** ** The label component *)

Record LabelComponent := mkLabelComponent {
  labels : list nat;
  labelsCfgMap : Dict TextStyle;
  lastLabelsCfgMap : Dict TextStyle
}.

(** State threaded through the animation part: the group, the previous
    snapshot being consumed, and the log of calls. *)
Record RState := mkRState {
  r_group : Group;
  r_last : Dict TextStyle;
  r_calls : list Call
}.

(** State threaded through the drawing part. *)
Record DState := mkDState {
  d_group : Group;
  d_labels : list nat;
  d_cfgMap : Dict TextStyle
}.

Section LabelComponent.
Context (geometry : Geometry) (coord : Coordinate).
Context (getDefaultAnimateCfg : string → Coordinate → AnimateCfg).
(** The abstract methods supplied by each chart type.  [adjustLabel]
    acts on the label it is given. *)
Context (getLabelItemAttrs : Element → nat → list TextStyle).
Context (adjustLabel : Shape → Element → nat → Shape).

Definition drawLabelText (group : Group) (a : TextStyle) (id name : string)
    (o : option MappingDatum) : Group * nat :=
  addShape group "text" a id name o.

(** The [map] of [drawLabelItem], from position [idx] on.  Reading
    [_origin] of a datum missing from the array throws: [None]. *)
Fixpoint drawItems (group : Group) (md : MappingData) (items : list TextStyle)
    (idx : nat) : option (Group * list nat) :=
  match items with
  | [] => Some (group, [])
  | a :: rest =>
      dataItem ← match md with
                 | DatumArray l => l !! idx
                 | OneDatum d => Some d
                 end;
      let id := getLabelId geometry dataItem in
      let '(group1, label) := drawLabelText group a id "label" (Some dataItem) in
      '(group2, more) ← drawItems group1 md rest (S idx);
      Some (group2, label :: more)
  end.

Definition drawLabelItem (group : Group) (element : Element) (elementIdx : nat)
    : option (Group * list nat) :=
  drawItems group (mappingData element) (getLabelItemAttrs element elementIdx) 0.

(** Body of the inner [each] of the drawing loop (lines 83-87).  The
    label is a handle returned by [drawLabelItem], so the first branch is
    never taken. *)
Definition collectLabel (element : Element) (st : DState) (label idx : nat) : DState :=
  match d_group st !! label with
  | None => st
  | Some drawn =>
      let adjusted := adjustLabel drawn element idx in
      let group := <[label := adjusted]> (d_group st) in
      if destroyed adjusted then mkDState group (d_labels st) (d_cfgMap st)
      else mkDState group (d_labels st ++ [label])
                    (dict_set (shape_id adjusted) (attrs adjusted) (d_cfgMap st))
  end.

Fixpoint collectLabels (element : Element) (st : DState) (ls : list nat) (idx : nat)
    : DState :=
  match ls with
  | [] => st
  | label :: rest => collectLabels element (collectLabel element st label idx) rest (S idx)
  end.

(** Body of the outer [each] of the drawing loop (lines 81-88). *)
Definition drawElement (st : DState) (element : Element) (elementIdx : nat)
    : option DState :=
  '(group, ls) ← drawLabelItem (d_group st) element elementIdx;
  Some (collectLabels element (mkDState group (d_labels st) (d_cfgMap st)) ls 0).

Fixpoint drawElements (st : DState) (els : list Element) (elementIdx : nat)
    : option DState :=
  match els with
  | [] => Some st
  | element :: rest =>
      st1 ← drawElement st element elementIdx;
      drawElements st1 rest (S elementIdx)
  end.

(** Lines 76-89: reset, then draw and collect the labels of every element. *)
Definition drawLabels (group : Group) : option DState :=
  drawElements (mkDState group [] ∅) (elements geometry) 0.

(** Line 94. *)
Definition animateCfg : option AnimateCfg :=
  if animateOption geometry then Some (getDefaultAnimateCfg "label" coord) else None.

(** Callback of the first loop (lines 95-125).  The test of line 98 is a
    read through the prototype chain, [readSnapshot], and its result is
    what [shape.attr] is given. *)
Definition onCurrent (st : RState) (id : string) (a : TextStyle) : RState :=
  let entered := r_calls st ++ [Visit OverCurrent id] in
  let '(group, log) :=
    match findById (r_group st) id with
    | Some shape =>
        let oldAttrs := readSnapshot (r_last st) id in
        if truthy oldAttrs then
          match get animateCfg Update with
          | Some updateAnimateCfg =>
              (alter (attrGot oldAttrs) shape (r_group st),
               entered ++ attrCall shape id oldAttrs ++
                 [DoAnimate Update shape id updateAnimateCfg (Some a) coord])
          | None => (r_group st, entered)
          end
        else
          match get animateCfg Appear with
          | Some appearAnimateCfg =>
              (r_group st,
               entered ++ [DoAnimate Appear shape id appearAnimateCfg
                                     (Some (getAttrs (r_group st) shape)) coord])
          | None => (r_group st, entered)
          end
    | None => (r_group st, entered)
    end in
  mkRState group (dict_delete id (r_last st)) log.

(** Callback of the second loop (lines 126-140). *)
Definition onOutstanding (st : RState) (id : string) (a : TextStyle) : RState :=
  let entered := r_calls st ++ [Visit OverOutstanding id] in
  match get animateCfg Leave with
  | Some leaveAnimateCfg =>
      let '(group, tempShape) := addShape (r_group st) "text" a id "label" None in
      mkRState group (r_last st)
               (entered ++ [AddShape tempShape (mkShape "text" id "label" a None false);
                            DoAnimate Leave tempShape id leaveAnimateCfg None coord])
  | None => mkRState (r_group st) (r_last st) entered
  end.

(** Lines 92-140: the first loop consumes the previous snapshot, the
    second runs over what is left of it. *)
Definition reconcile (group : Group) (last cur : Dict TextStyle) : RState :=
  let st1 := each (own cur) onCurrent (mkRState group last []) in
  each (own (r_last st1)) onOutstanding st1.

(** [renderInner(group)]: the new component state, the group and the log
    of the animation part; [None] when drawing throws. *)
Definition renderInner (this : LabelComponent) (group : Group)
    : option (LabelComponent * Group * list Call) :=
  drawn ← drawLabels group;
  let st := reconcile (d_group drawn) (lastLabelsCfgMap this) (d_cfgMap drawn) in
  Some (mkLabelComponent (d_labels drawn) (d_cfgMap drawn) (d_cfgMap drawn),
        r_group st, r_calls st).


(** ** Vocabulary of the statements about the animation part *)

(** A transient shape, as the second loop creates it. *)
Definition transient (id : string) (a : TextStyle) : Shape :=
  mkShape "text" id "label" a None false.

(** The calls the first loop issues about [id], read off the state in
    which the loop starts. *)
Definition current_calls (group : Group) (last : Dict TextStyle)
    (id : string) (a : TextStyle) : list Call :=
  Visit OverCurrent id ::
  match findById group id with
  | Some shape =>
      if truthy (readSnapshot last id) then
        match get animateCfg Update with
        | Some c => attrCall shape id (readSnapshot last id) ++
                    [DoAnimate Update shape id c (Some a) coord]
        | None => []
        end
      else
        match get animateCfg Appear with
        | Some c => [DoAnimate Appear shape id c (Some (getAttrs group shape)) coord]
        | None => []
        end
  | None => []
  end.

(** The calls the second loop issues about [id], given the handle of the
    transient shape. *)
Definition outstanding_calls (tempShape : nat) (id : string) (a : TextStyle)
    : list Call :=
  Visit OverOutstanding id ::
  match get animateCfg Leave with
  | Some c => [AddShape tempShape (transient id a);
               DoAnimate Leave tempShape id c None coord]
  | None => []
  end.

(** The two loops over an explicit enumeration of the entries. *)
Definition loop1 (l : list (string * TextStyle)) (st : RState) : RState :=
  foldl (λ acc kv, onCurrent acc kv.1 kv.2) st l.

Definition loop2 (l : list (string * TextStyle)) (st : RState) : RState :=
  foldl (λ acc kv, onOutstanding acc kv.1 kv.2) st l.

(** A live shape with identity [id] sits at handle [h]. *)
Definition live_at (group : Group) (h : nat) (id : string) : Prop :=
  ∃ s, group !! h = Some s ∧ shape_id s = id ∧ destroyed s = false.

Definition call_ok (group : Group) (c : Call) : Prop :=
  match c with
  | Visit _ _ => True
  | ShapeAttr h id _ => is_Some (get animateCfg Update) ∧ live_at group h id
  | ShapeAttrInherited h id _ => is_Some (get animateCfg Update) ∧ live_at group h id
  | AddShape h s => is_Some (get animateCfg Leave) ∧ live_at group h (shape_id s)
  | DoAnimate ph h id _ _ _ => is_Some (get animateCfg ph) ∧ live_at group h id
  end.

End LabelComponent.

(** [l] lists the entries of [m], each key once, in some order. *)
Definition enumerates (l : list (string * TextStyle)) (m : Dict TextStyle)
    : Prop :=
  NoDup l.*1 ∧ ∀ id a, (id, a) ∈ l ↔ m !! id = Some a.

(** Invariant of the drawing loop.  [g0] is the group as received,
    [pending] the labels drawn for the element at hand and not yet
    adjusted. *)
Record DInv (g0 : Group) (pending : list nat) (st : DState) : Prop := mkDInv {
  inv_labels : ∀ h, h ∈ d_labels st →
    (h ∉ pending) ∧ ∃ s, d_group st !! h = Some s ∧ destroyed s = false;
  inv_cfgMap : ∀ id a, d_cfgMap st !! id = Some a →
    ∃ h s, h ∈ d_labels st ∧ d_group st !! h = Some s ∧
           shape_id s = id ∧ destroyed s = false ∧ attrs s = a;
  inv_live : ∀ h s, d_group st !! h = Some s → destroyed s = false →
    (h < length g0)%nat ∨ h ∈ pending ∨ is_Some (d_cfgMap st !! shape_id s) ∨
    shape_id s = "__proto__";
  inv_pending : ∀ h, h ∈ pending →
    (length g0 ≤ h)%nat ∧ (h < length (d_group st))%nat;
  inv_old : ∀ h, (h < length g0)%nat → d_group st !! h = g0 !! h;
  inv_length : (length g0 ≤ length (d_group st))%nat
}.

(** Two values are of the same primitive kind. *)
Definition same_kind (v w : Value) : Prop :=
  match v, w with
  | VUndefined, VUndefined | VNull, VNull => True
  | VBool _, VBool _ | VNum _, VNum _ | VStr _, VStr _ => True
  | _, _ => False
  end.

(** * A concrete pass *)

(** One line series, "Lon", with a label per year.  The previous pass
    showed 1990 and 1991; this pass draws 1991, 1992 and 1993, and the
    adjustment suppresses the label of 1993, whose value is 0. *)

Definition demo_datum (year : Value) (value : Z) (series : string) : MappingDatum :=
  mkMappingDatum {[ "year" := year; "value" := VNum value; "type" := VStr series ]}.

Definition demo_elements : list Element :=
  [mkElement (DatumArray [demo_datum (VStr "1991") 20 "Lon";
                          demo_datum (VStr "1992") 30 "Lon";
                          demo_datum (VStr "1993") 0 "Lon"])].

Definition demo_geometry (ty : string) (animate : bool) : Geometry :=
  mkGeometry ty "year" "value" (λ d, ToString (getField (_origin d) "type"))
             demo_elements animate.

Definition demo_attrs (x : Z) : TextStyle := {[ "x" := VNum x ]}.

Definition demo_getLabelItemAttrs (element : Element) (elementIdx : nat)
    : list TextStyle :=
  let style d := {[ "x" := getField (_origin d) "value" ]} in
  match mappingData element with
  | OneDatum d => [style d]
  | DatumArray l => style <$> l
  end.

Definition demo_adjustLabel (label : Shape) (element : Element) (idx : nat) : Shape :=
  if decide (attrs label !! "x" = Some (VNum 0))
  then mkShape (shape_type label) (shape_id label) (shape_name label) (attrs label)
               (origin label) true
  else label.

Definition demo_fade_in : AnimateSpec := mkAnimateSpec "fade-in" 450.
Definition demo_move : AnimateSpec := mkAnimateSpec "position-update" 400.
Definition demo_fade_out : AnimateSpec := mkAnimateSpec "fade-out" 350.

Definition demo_getDefaultAnimateCfg (name : string) (c : Coordinate) : AnimateCfg :=
  mkAnimateCfg (Some demo_fade_in) (Some demo_move) (Some demo_fade_out).

Definition demo_coord : Coordinate := mkCoordinate "rect" false.

Definition demo_last : Dict TextStyle :=
  list_to_dict [("Lon 1990", demo_attrs 5); ("Lon 1991", demo_attrs 10)].

Definition demo_this : LabelComponent := mkLabelComponent [] ∅ demo_last.

Definition demo_renderInner (animate : bool) :=
  renderInner (demo_geometry "line" animate) demo_coord demo_getDefaultAnimateCfg
              demo_getLabelItemAttrs demo_adjustLabel demo_this [].

Definition demo_pass (animate : bool) : LabelComponent * Group * list Call :=
  default (demo_this, [], []) (demo_renderInner animate).

Definition demo_label (year : string) (x : Z) (gone : bool) : Shape :=
  mkShape "text" ("Lon " +:+ year) "label" (demo_attrs x)
          (Some (demo_datum (VStr year) x "Lon")) gone.

(** Data items whose identities collide. *)
Definition demo_year_number : MappingDatum := demo_datum (VNum 1991) 20 "Lon".
Definition demo_year_string : MappingDatum := demo_datum (VStr "1991") 20 "Lon".

Definition demo_point (x y : string) : MappingDatum :=
  mkMappingDatum {[ "year" := VStr x; "value" := VStr y; "type" := VStr "Lon" ]}.

(** ** Vocabulary of the further properties *)

(** The datum the label at position [idx] of an element is drawn for
    (line 161). *)
Definition dataItemAt (md : MappingData) (idx : nat) : option MappingDatum :=
  match md with
  | DatumArray l => l !! idx
  | OneDatum d => Some d
  end.

(** The shape [drawLabelItem] creates for one attribute set and its datum. *)
Definition labelShape (geometry : Geometry) (a : TextStyle) (dataItem : MappingDatum)
    : Shape :=
  mkShape "text" (getLabelId geometry dataItem) "label" a (Some dataItem) false.

(** How many attribute sets the elements yield, from index [elementIdx] on. *)
Fixpoint countItems (getLabelItemAttrs : Element → nat → list TextStyle)
    (els : list Element) (elementIdx : nat) : nat :=
  match els with
  | [] => 0
  | element :: rest =>
      length (getLabelItemAttrs element elementIdx) +
      countItems getLabelItemAttrs rest (S elementIdx)
  end.

(** The constructor of the last registration for [t] in a sequence. *)
Definition lastRegistered {Ctor : Type} (t : string) (regs : list (string * Ctor))
    : option Ctor :=
  snd <$> last (filter (λ r, r.1 = t) regs).

(** The adjustment destroys no label. *)
Definition keeps_labels (adjustLabel : Shape → Element → nat → Shape) : Prop :=
  ∀ s element idx, destroyed s = false → destroyed (adjustLabel s element idx) = false.

(** Every label of the list has its identity in the snapshot, unless that
    identity is [__proto__]. *)
Definition labels_in_snapshot (st : DState) : Prop :=
  ∀ h, h ∈ d_labels st →
       ∃ s, d_group st !! h = Some s ∧
            (is_Some (d_cfgMap st !! shape_id s) ∨ shape_id s = "__proto__").

(** The string contains a dash. *)
Fixpoint has_dash (s : string) : bool :=
  match s with
  | EmptyString => false
  | String c rest => Ascii.eqb c "-"%char || has_dash rest
  end.

(** An element that yields two attribute sets for its single datum. *)
Definition demo_twice (element : Element) (elementIdx : nat) : list TextStyle :=
  [demo_attrs 1; demo_attrs 2].

(** A component before its first pass, and its first pass. *)
Definition demo_fresh : LabelComponent := mkLabelComponent [] ∅ ∅.

Definition demo_first : LabelComponent * Group * list Call :=
  default (demo_fresh, [], [])
          (renderInner (demo_geometry "line" true) demo_coord demo_getDefaultAnimateCfg
                       demo_getLabelItemAttrs demo_adjustLabel demo_fresh []).

(** The concrete pass run a second time on an emptied group. *)
Definition demo_again : LabelComponent * Group * list Call :=
  default (demo_this, [], [])
          (renderInner (demo_geometry "line" true) demo_coord demo_getDefaultAnimateCfg
                       demo_getLabelItemAttrs demo_adjustLabel (demo_pass true).1.1 []).

(** A geometry that owns no element. *)
Definition demo_no_elements : Geometry :=
  mkGeometry "line" "year" "value" (λ d, ToString (getField (_origin d) "type")) [] true.

(** An element with a single datum. *)
Definition demo_single : Element :=
  mkElement (OneDatum (demo_datum (VStr "1991") 20 "Lon")).

(** A column chart whose single series is named "constructor": the label
    of its column has that identity.  Its first pass. *)
Definition demo_inherited_geometry : Geometry :=
  mkGeometry "interval" "year" "value" (λ d, ToString (getField (_origin d) "type"))
             [mkElement (OneDatum (demo_datum (VStr "1991") 20 "constructor"))] true.

Definition demo_inherited : LabelComponent * Group * list Call :=
  default (demo_fresh, [], [])
          (renderInner demo_inherited_geometry demo_coord demo_getDefaultAnimateCfg
                       demo_getLabelItemAttrs demo_adjustLabel demo_fresh []).

(** The animation part on an empty group. *)
Definition demo_reconcile : RState :=
  reconcile (demo_geometry "line" true) demo_coord demo_getDefaultAnimateCfg
            [] demo_last {[ "Lon 1991" := demo_attrs 20 ]}.

(** * Properties *)

(** ** Dictionaries *)

Section Dict.
Context {V : Type}.
Implicit Types (d : Dict V) (k j : string) (v : V).

Lemma dict_lookup_own d k : d !! k = own d !! k.
Proof. reflexivity. Qed.

Lemma lookup_dict_proto d : d !! "__proto__" = None.
Proof. apply own_plain. Qed.

Lemma lookup_dict_empty k : (∅ : Dict V) !! k = None.
Proof. apply (lookup_empty (M:=gmap string)). Qed.

Lemma own_dict_delete d k : own (dict_delete k d) = delete k (own d).
Proof. reflexivity. Qed.

Lemma proto_dict_delete d k : proto (dict_delete k d) = proto d.
Proof. reflexivity. Qed.

Lemma lookup_dict_delete_eq d k : dict_delete k d !! k = None.
Proof. apply (lookup_delete_eq (M:=gmap string)). Qed.

Lemma lookup_dict_delete_ne d k j : k ≠ j → dict_delete k d !! j = d !! j.
Proof. apply (lookup_delete_ne (M:=gmap string)). Qed.

Lemma own_dict_set d k v :
  own (dict_set k v d) = if decide (k = "__proto__") then own d else <[k := v]> (own d).
Proof. unfold dict_set. by destruct (decide (k = "__proto__")). Qed.

Lemma proto_dict_set d k v :
  proto (dict_set k v d) = if decide (k = "__proto__") then Some v else proto d.
Proof. unfold dict_set. by destruct (decide (k = "__proto__")). Qed.

Lemma lookup_dict_set_eq d k v : k ≠ "__proto__" → dict_set k v d !! k = Some v.
Proof.
  intros Hk. rewrite dict_lookup_own, own_dict_set, decide_False by done.
  apply lookup_insert_eq.
Qed.

Lemma lookup_dict_set_ne d k j v : k ≠ j → dict_set k v d !! j = d !! j.
Proof.
  intros Hk. rewrite !dict_lookup_own, own_dict_set.
  case_decide; [done|]. by apply lookup_insert_ne.
Qed.

Lemma lookup_dict_set_proto d v j : dict_set "__proto__" v d !! j = d !! j.
Proof. by rewrite !dict_lookup_own, own_dict_set, decide_True. Qed.

(** A write removes no own property. *)
Lemma lookup_dict_set_is_Some d k v j :
  is_Some (d !! j) → is_Some (dict_set k v d !! j).
Proof.
  intros Hj. rewrite dict_lookup_own, own_dict_set. case_decide; [done|].
  apply lookup_insert_is_Some'. by right.
Qed.

(** The own properties after a write: the written key, unless it is
    [__proto__], and those from before. *)
Lemma lookup_dict_set_Some d k v j w :
  dict_set k v d !! j = Some w ↔
  (k ≠ "__proto__" ∧ k = j ∧ v = w) ∨ (k ≠ j ∧ d !! j = Some w) ∨
  (k = "__proto__" ∧ d !! j = Some w).
Proof.
  rewrite !dict_lookup_own, own_dict_set. case_decide as Hk.
  - naive_solver.
  - rewrite lookup_insert_Some. naive_solver.
Qed.

(** Two objects with the same own properties and prototype are one. *)
Lemma dict_eq d1 d2 : own d1 = own d2 → proto d1 = proto d2 → d1 = d2.
Proof.
  destruct d1 as [o1 p1 H1], d2 as [o2 p2 H2]. simpl. intros -> ->.
  f_equal. apply Eqdep_dec.eq_proofs_unicity_on.
  intros [v|]; [right|left; done]. by rewrite H1.
Qed.

Lemma own_dict_difference d1 d2 : own (d1 ∖ d2) = own d1 ∖ own d2.
Proof. reflexivity. Qed.

Lemma map_to_list_own d : map_to_list d = map_to_list (own d).
Proof. reflexivity. Qed.

Lemma size_own d : size d = size (own d).
Proof. reflexivity. Qed.

End Dict.

(** A read that finds an own entry finds that entry. *)
Lemma readSnapshot_own (m : Dict TextStyle) id a :
  m !! id = Some a → readSnapshot m id = GotAttrs a.
Proof. intros H. unfold readSnapshot. rewrite dict_lookup_own in H. by rewrite H. Qed.

(** Deleting another key does not change a read. *)
Lemma readSnapshot_delete_ne (m : Dict TextStyle) k id :
  k ≠ id → readSnapshot (dict_delete k m) id = readSnapshot m id.
Proof.
  intros Hne. unfold readSnapshot.
  by rewrite own_dict_delete, proto_dict_delete, lookup_delete_ne.
Qed.

(** On an object with the default prototype, a read finds nothing for a
    name that is neither owned nor a member of [Object.prototype]. *)
Lemma readSnapshot_plain (m : Dict TextStyle) id :
  m !! id = None → proto m = None → id ∉ objectPrototypeMembers →
  readSnapshot m id = GotUndefined.
Proof.
  intros Ho Hp Hn. unfold readSnapshot, readObjectPrototype.
  rewrite dict_lookup_own in Ho. rewrite Ho, Hp. by rewrite bool_decide_eq_false_2.
Qed.

(** Shapes keep identity and destroyed flag under [shape.attr]. *)
Lemma attrGot_id x s : shape_id (attrGot x s) = shape_id s.
Proof. by destruct x. Qed.

Lemma attrGot_destroyed x s : destroyed (attrGot x s) = destroyed s.
Proof. by destruct x. Qed.

(** ** Scene-graph lookups *)

Lemma shape_is_spec id s :
  shape_is id s = true ↔ shape_id s = id ∧ destroyed s = false.
Proof.
  unfold shape_is. rewrite andb_true_iff, negb_true_iff, String.eqb_eq. tauto.
Qed.

Lemma findById_Some group id h :
  findById group id = Some h →
  ∃ s, group !! h = Some s ∧ shape_id s = id ∧ destroyed s = false.
Proof.
  revert h. induction group as [|s rest IH]; intros h; simpl; [done|].
  destruct (shape_is id s) eqn:E.
  - intros [= <-]. exists s. by apply shape_is_spec in E as [??].
  - destruct (findById rest id) as [h'|]; simpl; [|done].
    intros [= <-]. by apply IH.
Qed.

Lemma findById_None group id h s :
  findById group id = None → group !! h = Some s →
  shape_id s = id → destroyed s = true.
Proof.
  revert h. induction group as [|s0 rest IH]; intros h; simpl; [done|].
  destruct (shape_is id s0) eqn:E; [done|].
  destruct (findById rest id) eqn:F; simpl; [done|]. intros _.
  destruct h as [|h]; simpl.
  - intros [= ->] Hid. destruct (destroyed s) eqn:D; [done|].
    assert (shape_is id s = true) by (by apply shape_is_spec). congruence.
  - by apply IH.
Qed.

(** A lookup only depends on the identities and destroyed flags. *)
Lemma findById_ext g1 g2 id :
  Forall2 (λ s1 s2, shape_id s1 = shape_id s2 ∧ destroyed s1 = destroyed s2) g1 g2 →
  findById g1 id = findById g2 id.
Proof.
  induction 1 as [|s1 s2 g1 g2 [Hi Hd] _ IH]; simpl; [done|].
  unfold shape_is. by rewrite Hi, Hd, IH.
Qed.

Lemma findById_alter_attr o h group id :
  findById (alter (attr o) h group) id = findById group id.
Proof.
  apply findById_ext. revert h.
  induction group as [|s rest IH]; intros [|h]; simpl; constructor;
    try done; try apply IH.
  all: by apply Forall2_same_length_lookup_2; [|intros ??? ? ?; simplify_eq].
Qed.

Lemma findById_alter_attrGot x h group id :
  findById (alter (attrGot x) h group) id = findById group id.
Proof.
  destruct x; try apply findById_alter_attr; simpl.
  all: rewrite list_alter_id; done.
Qed.

Lemma findById_app_Some g1 g2 id h :
  findById g1 id = Some h → findById (g1 ++ g2) id = Some h.
Proof.
  revert h. induction g1 as [|s rest IH]; intros h; simpl; [done|].
  destruct (shape_is id s); [done|].
  destruct (findById rest id) as [h'|]; simpl; [|done].
  intros [= <-]. by rewrite (IH h').
Qed.

Lemma findById_app_None g1 g2 id :
  findById g1 id = None → findById g2 id = None → findById (g1 ++ g2) id = None.
Proof.
  induction g1 as [|s rest IH]; simpl; [done|].
  destruct (shape_is id s); [done|].
  destruct (findById rest id) as [h'|]; simpl; [done|].
  intros _ H2. by rewrite IH.
Qed.

Lemma findById_is_Some group id h s :
  group !! h = Some s → shape_id s = id → destroyed s = false →
  is_Some (findById group id).
Proof.
  intros Hl Hi Hd. destruct (findById group id) eqn:F; [eauto|].
  pose proof (findById_None _ _ _ _ F Hl Hi). congruence.
Qed.

(** ** The animation part *)

Section Reconciliation.
Context (geometry : Geometry) (coord : Coordinate).
Context (getDefaultAnimateCfg : string → Coordinate → AnimateCfg).

Local Abbreviation cfg := (animateCfg geometry coord getDefaultAnimateCfg).
Local Abbreviation onCurrent := (onCurrent geometry coord getDefaultAnimateCfg).
Local Abbreviation onOutstanding := (onOutstanding geometry coord getDefaultAnimateCfg).
Local Abbreviation reconcile := (reconcile geometry coord getDefaultAnimateCfg).
Local Abbreviation current_calls := (current_calls geometry coord getDefaultAnimateCfg).
Local Abbreviation outstanding_calls :=
  (outstanding_calls geometry coord getDefaultAnimateCfg).
Local Abbreviation loop1 := (loop1 geometry coord getDefaultAnimateCfg).
Local Abbreviation loop2 := (loop2 geometry coord getDefaultAnimateCfg).
Local Abbreviation call_ok := (call_ok geometry coord getDefaultAnimateCfg).

Lemma reconcile_loops group last cur :
  reconcile group last cur =
  loop2 (map_to_list (own (r_last (loop1 (map_to_list (own cur))
                                          (mkRState group last [])))))
        (loop1 (map_to_list (own cur)) (mkRState group last [])).
Proof. reflexivity. Qed.

Lemma calls_of_app id l1 l2 :
  calls_of id (l1 ++ l2) = calls_of id l1 ++ calls_of id l2.
Proof. apply filter_app. Qed.

Lemma calls_of_cons_same id c l :
  call_id c = id → calls_of id (c :: l) = c :: calls_of id l.
Proof. intros. by apply filter_cons_True. Qed.

Lemma calls_of_cons_other id c l :
  call_id c ≠ id → calls_of id (c :: l) = calls_of id l.
Proof. intros. by apply filter_cons_False. Qed.

Lemma calls_of_nil id : calls_of id [] = [].
Proof. reflexivity. Qed.

Lemma calls_of_attrCall_same id h x : calls_of id (attrCall h id x) = attrCall h id x.
Proof.
  destruct x; simpl; [| |done]; by rewrite calls_of_cons_same.
Qed.

Lemma calls_of_attrCall_other id k h x : k ≠ id → calls_of id (attrCall h k x) = [].
Proof.
  intros. destruct x; simpl; [| |done]; by rewrite calls_of_cons_other.
Qed.

Ltac calls_simpl :=
  rewrite ?calls_of_app;
  repeat first [ rewrite calls_of_cons_same by done
               | rewrite calls_of_cons_other by (simpl; congruence)
               | rewrite calls_of_attrCall_same
               | rewrite calls_of_attrCall_other by done ];
  rewrite ?calls_of_nil, ?app_nil_r.

(** *** One step of the first loop *)

Lemma onCurrent_last st k v : r_last (onCurrent st k v) = dict_delete k (r_last st).
Proof. unfold onCurrent. repeat case_match; simplify_eq; done. Qed.

Lemma onCurrent_findById st k v id :
  findById (r_group (onCurrent st k v)) id = findById (r_group st) id.
Proof.
  unfold onCurrent. repeat case_match; simplify_eq; simpl; try done.
  apply findById_alter_attrGot.
Qed.

Lemma onCurrent_length st k v :
  length (r_group (onCurrent st k v)) = length (r_group st).
Proof.
  unfold onCurrent. repeat case_match; simplify_eq; simpl; try done.
  apply length_alter.
Qed.

(** Every slot keeps its identity and destroyed flag. *)
Lemma onCurrent_slot st k v h s :
  r_group st !! h = Some s →
  ∃ s', r_group (onCurrent st k v) !! h = Some s' ∧
        shape_id s' = shape_id s ∧ destroyed s' = destroyed s.
Proof.
  intros Hs. unfold onCurrent. repeat case_match; simplify_eq; simpl; eauto.
  rewrite list_lookup_alter. case_decide as Hd; [|eauto].
  subst. rewrite Hs. simpl. eexists. split; [done|].
  by rewrite attrGot_id, attrGot_destroyed.
Qed.

(** A step about another identity leaves the live shape of [id] alone. *)
Lemma onCurrent_lookup_other st k v id h :
  k ≠ id → findById (r_group st) id = Some h →
  r_group (onCurrent st k v) !! h = r_group st !! h.
Proof.
  intros Hne Hf. unfold onCurrent. repeat case_match; simplify_eq; simpl; try done.
  apply list_lookup_alter_ne. intros ->.
  match goal with H : findById _ k = Some _ |- _ =>
    apply findById_Some in H as (s1 & Hs1 & Hi1 & _) end.
  apply findById_Some in Hf as (s2 & Hs2 & Hi2 & _). congruence.
Qed.

Lemma onCurrent_lookup_same st id a h s :
  findById (r_group st) id = Some h → r_group st !! h = Some s →
  r_group (onCurrent st id a) !! h =
  Some (if truthy (readSnapshot (r_last st) id) then
          match get cfg Update with
          | Some _ => attrGot (readSnapshot (r_last st) id) s
          | None => s
          end
        else s).
Proof.
  intros Hf Hs. unfold onCurrent. rewrite Hf.
  repeat case_match; simplify_eq; simpl; try done.
  by rewrite list_lookup_alter_eq, Hs.
Qed.

Lemma onCurrent_calls_same st id a :
  calls_of id (r_calls (onCurrent st id a)) =
  calls_of id (r_calls st) ++ current_calls (r_group st) (r_last st) id a.
Proof.
  unfold onCurrent, current_calls.
  repeat case_match; simplify_eq; simpl; calls_simpl;
    rewrite <- ?app_assoc; done.
Qed.

Lemma onCurrent_calls_other st k v id :
  k ≠ id → calls_of id (r_calls (onCurrent st k v)) = calls_of id (r_calls st).
Proof.
  intros Hne. unfold onCurrent.
  repeat case_match; simplify_eq; simpl; calls_simpl; done.
Qed.

Lemma current_calls_other st k v id a :
  k ≠ id →
  current_calls (r_group (onCurrent st k v)) (r_last (onCurrent st k v)) id a =
  current_calls (r_group st) (r_last st) id a.
Proof.
  intros Hne. unfold current_calls.
  rewrite onCurrent_findById, onCurrent_last, readSnapshot_delete_ne by done.
  destruct (findById (r_group st) id) as [h|] eqn:Hf; [|done].
  unfold getAttrs. by rewrite (onCurrent_lookup_other _ _ _ id h).
Qed.

(** *** The first loop *)

Lemma loop1_cons k v l st : loop1 ((k, v) :: l) st = loop1 l (onCurrent st k v).
Proof. reflexivity. Qed.

Lemma loop1_last l st id :
  r_last (loop1 l st) !! id = if decide (id ∈ l.*1) then None else r_last st !! id.
Proof.
  revert st. induction l as [|[k v] l IH]; intros st.
  - case_decide as Hin; [|done]. by apply elem_of_nil in Hin.
  - rewrite loop1_cons, IH, onCurrent_last.
    change (((k, v) :: l).*1) with (k :: l.*1).
    repeat case_decide; try done.
    + set_solver.
    + assert (id = k) as -> by set_solver. apply lookup_dict_delete_eq.
    + apply lookup_dict_delete_ne. set_solver.
Qed.


Lemma loop1_length l st : length (r_group (loop1 l st)) = length (r_group st).
Proof.
  revert st. induction l as [|[k v] l IH]; intros st; [done|].
  by rewrite loop1_cons, IH, onCurrent_length.
Qed.

Lemma loop1_slot l st h s :
  r_group st !! h = Some s →
  ∃ s', r_group (loop1 l st) !! h = Some s' ∧
        shape_id s' = shape_id s ∧ destroyed s' = destroyed s.
Proof.
  revert st s. induction l as [|[k v] l IH]; intros st s Hs; [eauto|].
  rewrite loop1_cons.
  destruct (onCurrent_slot st k v h s Hs) as (s1 & Hs1 & Hi1 & Hd1).
  destruct (IH _ _ Hs1) as (s2 & Hs2 & Hi2 & Hd2).
  exists s2. split; [done|]. split; congruence.
Qed.

Lemma loop1_no_update l st :
  get cfg Update = None → r_group (loop1 l st) = r_group st.
Proof.
  intros Hu. revert st. induction l as [|[k v] l IH]; intros st; [done|].
  rewrite loop1_cons, IH. unfold onCurrent. rewrite Hu.
  by repeat case_match; simplify_eq.
Qed.

Lemma loop1_calls_absent l st id :
  id ∉ l.*1 → calls_of id (r_calls (loop1 l st)) = calls_of id (r_calls st).
Proof.
  revert st. induction l as [|[k v] l IH]; intros st Hid; [done|].
  rewrite loop1_cons, IH by set_solver.
  apply onCurrent_calls_other. set_solver.
Qed.

Lemma loop1_calls_present l st id a :
  NoDup l.*1 → (id, a) ∈ l →
  calls_of id (r_calls (loop1 l st)) =
  calls_of id (r_calls st) ++ current_calls (r_group st) (r_last st) id a.
Proof.
  revert st. induction l as [|[k v] l IH]; intros st Hnd Hin.
  { by apply elem_of_nil in Hin. }
  rewrite loop1_cons. simpl in Hnd. apply NoDup_cons in Hnd as [Hk Hnd].
  apply elem_of_cons in Hin as [[= <- <-]|Hin].
  - rewrite loop1_calls_absent by done. apply onCurrent_calls_same.
  - assert (k ≠ id).
    { intros ->. apply Hk. apply list_elem_of_fmap. by exists (id, a). }
    by rewrite IH, current_calls_other, onCurrent_calls_other.
Qed.

Lemma loop1_lookup_absent l st id h :
  id ∉ l.*1 → findById (r_group st) id = Some h →
  r_group (loop1 l st) !! h = r_group st !! h.
Proof.
  revert st. induction l as [|[k v] l IH]; intros st Hid Hf; [done|].
  rewrite loop1_cons, IH; [|set_solver|by rewrite onCurrent_findById].
  apply (onCurrent_lookup_other _ _ _ id); [set_solver|done].
Qed.

Lemma loop1_lookup_present l st id a h s :
  NoDup l.*1 → (id, a) ∈ l →
  findById (r_group st) id = Some h → r_group st !! h = Some s →
  r_group (loop1 l st) !! h =
  Some (if truthy (readSnapshot (r_last st) id) then
          match get cfg Update with
          | Some _ => attrGot (readSnapshot (r_last st) id) s
          | None => s
          end
        else s).
Proof.
  revert st. induction l as [|[k v] l IH]; intros st Hnd Hin Hf Hs.
  { by apply elem_of_nil in Hin. }
  rewrite loop1_cons. simpl in Hnd. apply NoDup_cons in Hnd as [Hk Hnd].
  apply elem_of_cons in Hin as [[= <- <-]|Hin].
  - rewrite (loop1_lookup_absent _ _ id); [|done|by rewrite onCurrent_findById].
    by apply onCurrent_lookup_same.
  - assert (k ≠ id).
    { intros ->. apply Hk. apply list_elem_of_fmap. by exists (id, a). }
    rewrite (IH _ Hnd Hin); [|by rewrite onCurrent_findById|].
    + by rewrite onCurrent_last, readSnapshot_delete_ne.
    + by rewrite (onCurrent_lookup_other _ _ _ id).
Qed.

(** *** The second loop *)

Lemma loop2_cons k v l st : loop2 ((k, v) :: l) st = loop2 l (onOutstanding st k v).
Proof. reflexivity. Qed.

Lemma onOutstanding_last st k v : r_last (onOutstanding st k v) = r_last st.
Proof. unfold onOutstanding. by case_match. Qed.

Lemma onOutstanding_group st k v :
  r_group (onOutstanding st k v) =
  r_group st ++ match get cfg Leave with Some _ => [transient k v] | None => [] end.
Proof. unfold onOutstanding. case_match; simpl; by rewrite ?app_nil_r. Qed.

Lemma loop2_last l st : r_last (loop2 l st) = r_last st.
Proof.
  revert st. induction l as [|[k v] l IH]; intros st; [done|].
  by rewrite loop2_cons, IH, onOutstanding_last.
Qed.

(** The second loop only appends live shapes, and none without a leave spec. *)
Lemma loop2_group l st :
  ∃ added, r_group (loop2 l st) = r_group st ++ added ∧
           (get cfg Leave = None → added = []) ∧
           Forall (λ s, destroyed s = false ∧ shape_id s ∈ l.*1) added.
Proof.
  revert st. induction l as [|[k v] l IH]; intros st.
  { exists []. by rewrite app_nil_r. }
  rewrite loop2_cons. destruct (IH (onOutstanding st k v)) as (added & -> & Hn & Hall).
  rewrite onOutstanding_group, <- app_assoc. eexists. split; [done|]. split.
  - intros Hl. by rewrite Hl, Hn.
  - apply Forall_app. split.
    + case_match; constructor; [|done]. split; [done|]. simpl. set_solver.
    + eapply Forall_impl; [done|]. intros s [??]. split; [done|].
      change (((k, v) :: l).*1) with (k :: l.*1). set_solver.
Qed.

Lemma loop2_lookup l st h s :
  r_group st !! h = Some s → r_group (loop2 l st) !! h = Some s.
Proof.
  intros Hs. destruct (loop2_group l st) as (added & -> & _).
  by apply lookup_app_l_Some.
Qed.

Lemma onOutstanding_calls_other st k v id :
  k ≠ id →
  calls_of id (r_calls (onOutstanding st k v)) = calls_of id (r_calls st).
Proof.
  intros Hne. unfold onOutstanding.
  repeat case_match; simplify_eq; simpl; calls_simpl; done.
Qed.

Lemma onOutstanding_calls_same st id a :
  calls_of id (r_calls (onOutstanding st id a)) =
  calls_of id (r_calls st) ++ outstanding_calls (length (r_group st)) id a.
Proof.
  unfold onOutstanding, outstanding_calls, addShape, transient.
  repeat case_match; simplify_eq; simpl; calls_simpl;
    rewrite <- ?app_assoc; done.
Qed.

Lemma loop2_calls_absent l st id :
  id ∉ l.*1 → calls_of id (r_calls (loop2 l st)) = calls_of id (r_calls st).
Proof.
  revert st. induction l as [|[k v] l IH]; intros st Hid; [done|].
  rewrite loop2_cons, IH by set_solver.
  apply onOutstanding_calls_other. set_solver.
Qed.

Lemma loop2_calls_present (l : list (string * TextStyle)) st id a :
  NoDup l.*1 → (id, a) ∈ l →
  ∃ tempShape : nat,
    (length (r_group st) ≤ tempShape)%nat ∧
    calls_of id (r_calls (loop2 l st)) =
      calls_of id (r_calls st) ++ outstanding_calls tempShape id a ∧
    (is_Some (get cfg Leave) →
     r_group (loop2 l st) !! tempShape = Some (transient id a)).
Proof.
  revert st. induction l as [|[k v] l IH]; intros st Hnd Hin.
  { by apply elem_of_nil in Hin. }
  rewrite loop2_cons. simpl in Hnd. apply NoDup_cons in Hnd as [Hk Hnd].
  apply elem_of_cons in Hin as [[= <- <-]|Hin].
  - exists (length (r_group st)). split; [done|]. split.
    + rewrite loop2_calls_absent by done. apply onOutstanding_calls_same.
    + intros [c Hc]. apply loop2_lookup.
      rewrite onOutstanding_group, Hc. apply list_lookup_middle. done.
  - assert (k ≠ id).
    { intros ->. apply Hk. apply list_elem_of_fmap. by exists (id, a). }
    destruct (IH (onOutstanding st k v) Hnd Hin) as (h & Hle & Hc & Hg).
    exists h. split; [|split; [|done]].
    + rewrite onOutstanding_group, length_app in Hle. lia.
    + by rewrite Hc, onOutstanding_calls_other.
Qed.

(** *** Both loops *)

Lemma elem_of_keys (m : Dict TextStyle) id :
  id ∈ (map_to_list (own m)).*1 ↔ is_Some (m !! id).
Proof.
  rewrite list_elem_of_fmap. split.
  - intros ([k v] & -> & Hin). apply elem_of_map_to_list in Hin. eauto.
  - intros [v Hv]. exists (id, v). split; [done|]. by apply elem_of_map_to_list.
Qed.

Lemma not_elem_of_keys (m : Dict TextStyle) id :
  id ∉ (map_to_list (own m)).*1 ↔ m !! id = None.
Proof. rewrite elem_of_keys, eq_None_not_Some. done. Qed.

(** What is left of the previous snapshot once the first loop is done. *)
Lemma reconcile_last group last cur id :
  r_last (reconcile group last cur) !! id =
  match cur !! id with Some _ => None | None => last !! id end.
Proof.
  rewrite reconcile_loops, loop2_last, loop1_last. simpl.
  case_decide as Hin.
  - apply elem_of_keys in Hin as [a ->]. done.
  - apply not_elem_of_keys in Hin as ->. done.
Qed.

Lemma loop1_last_current group last (cur : Dict TextStyle) id :
  is_Some (cur !! id) →
  r_last (loop1 (map_to_list (own cur)) (mkRState group last [])) !! id = None.
Proof.
  intros Hc. rewrite loop1_last. apply elem_of_keys in Hc. by rewrite decide_True.
Qed.

Lemma loop1_last_outstanding group last (cur : Dict TextStyle) id :
  cur !! id = None →
  r_last (loop1 (map_to_list (own cur)) (mkRState group last [])) !! id = last !! id.
Proof.
  intros Hc. rewrite loop1_last. apply not_elem_of_keys in Hc.
  by rewrite decide_False.
Qed.

(** The calls about an identity of the current snapshot. *)
Lemma reconcile_calls_current group last cur id a :
  cur !! id = Some a →
  calls_of id (r_calls (reconcile group last cur)) = current_calls group last id a.
Proof.
  intros Hc. rewrite reconcile_loops.
  rewrite loop2_calls_absent.
  - rewrite (loop1_calls_present _ _ id a).
    + done.
    + apply NoDup_fst_map_to_list.
    + by apply elem_of_map_to_list.
  - apply not_elem_of_keys, loop1_last_current. eauto.
Qed.

(** The calls about an identity found in the previous snapshot only. *)
Lemma reconcile_calls_outstanding group last cur id oldAttrs :
  cur !! id = None → last !! id = Some oldAttrs →
  ∃ tempShape : nat,
    (length group ≤ tempShape)%nat ∧
    calls_of id (r_calls (reconcile group last cur)) =
      outstanding_calls tempShape id oldAttrs ∧
    (is_Some (get cfg Leave) →
     r_group (reconcile group last cur) !! tempShape = Some (transient id oldAttrs)).
Proof.
  intros Hc Hl. rewrite reconcile_loops.
  set (st1 := loop1 (map_to_list (own cur)) (mkRState group last [])).
  destruct (loop2_calls_present (map_to_list (own (r_last st1))) st1 id oldAttrs)
    as (h & Hle & Hcalls & Hg).
  - apply NoDup_fst_map_to_list.
  - apply elem_of_map_to_list. rewrite <- dict_lookup_own. unfold st1.
    by rewrite loop1_last_outstanding.
  - exists h. split; [|split; [|done]].
    + unfold st1 in Hle. by rewrite loop1_length in Hle.
    + rewrite Hcalls. unfold st1.
      rewrite loop1_calls_absent; [done|]. by apply not_elem_of_keys.
Qed.

(** No call is about an identity that is in neither snapshot. *)
Lemma reconcile_calls_neither group last cur id :
  cur !! id = None → last !! id = None →
  calls_of id (r_calls (reconcile group last cur)) = [].
Proof.
  intros Hc Hl. rewrite reconcile_loops.
  rewrite loop2_calls_absent.
  - rewrite loop1_calls_absent; [done|]. by apply not_elem_of_keys.
  - apply not_elem_of_keys. by rewrite loop1_last_outstanding.
Qed.

(** *** Any enumeration order gives the same calls about an identity *)

Lemma enumerates_map_to_list (m : Dict TextStyle) :
  enumerates (map_to_list (own m)) m.
Proof.
  split; [apply NoDup_fst_map_to_list|]. intros id a.
  rewrite dict_lookup_own. apply elem_of_map_to_list.
Qed.

Lemma enumerates_keys l m id : enumerates l m → id ∈ l.*1 ↔ is_Some (m !! id).
Proof.
  intros [_ Hl]. rewrite list_elem_of_fmap. split.
  - intros ([k v] & -> & Hin). apply Hl in Hin. eauto.
  - intros [v Hv]. exists (id, v). split; [done|]. by apply Hl.
Qed.

Lemma loops_any_order_current l1 l2 group last cur id a :
  let st1 := loop1 l1 (mkRState group last []) in
  enumerates l1 cur → enumerates l2 (r_last st1) →
  cur !! id = Some a →
  calls_of id (r_calls (loop2 l2 st1)) = current_calls group last id a.
Proof.
  intros st1 H1 H2 Hc.
  rewrite loop2_calls_absent.
  - unfold st1. rewrite (loop1_calls_present _ _ id a); [done|apply H1|by apply H1].
  - rewrite (enumerates_keys _ _ _ H2). unfold st1. rewrite loop1_last.
    rewrite decide_True; [by intros [??]|]. apply (enumerates_keys _ _ _ H1). eauto.
Qed.

Lemma loops_any_order_outstanding l1 l2 group last cur id oldAttrs :
  let st1 := loop1 l1 (mkRState group last []) in
  enumerates l1 cur → enumerates l2 (r_last st1) →
  cur !! id = None → last !! id = Some oldAttrs →
  ∃ tempShape : nat,
    calls_of id (r_calls (loop2 l2 st1)) = outstanding_calls tempShape id oldAttrs.
Proof.
  intros st1 H1 H2 Hc Hl.
  assert (id ∉ l1.*1) as Hout.
  { rewrite (enumerates_keys _ _ _ H1), Hc. by intros [??]. }
  destruct (loop2_calls_present l2 st1 id oldAttrs) as (h & _ & Hcalls & _).
  - apply H2.
  - apply H2. unfold st1. rewrite loop1_last. by rewrite decide_False.
  - exists h. rewrite Hcalls. unfold st1. by rewrite loop1_calls_absent.
Qed.

(** Shapes are never removed, and keep identity and destroyed flag. *)
Lemma reconcile_slot group last cur h s :
  group !! h = Some s →
  ∃ s', r_group (reconcile group last cur) !! h = Some s' ∧
        shape_id s' = shape_id s ∧ destroyed s' = destroyed s.
Proof.
  intros Hs. rewrite reconcile_loops.
  destruct (loop1_slot (map_to_list (own cur)) (mkRState group last []) h s Hs)
    as (s' & Hs' & ? & ?).
  exists s'. split; [|done]. by apply loop2_lookup.
Qed.

(** The live shape of an identity of the current snapshot after the pass. *)
Lemma reconcile_lookup_current group last cur id a h s :
  cur !! id = Some a → findById group id = Some h → group !! h = Some s →
  r_group (reconcile group last cur) !! h =
  Some (if truthy (readSnapshot last id) then
          match get cfg Update with
          | Some _ => attrGot (readSnapshot last id) s
          | None => s
          end
        else s).
Proof.
  intros Hc Hf Hs. rewrite reconcile_loops. apply loop2_lookup.
  rewrite (loop1_lookup_present _ _ id a h s); try done.
  - apply NoDup_fst_map_to_list.
  - by apply elem_of_map_to_list.
Qed.

(** Without an update spec no existing shape is touched; without a leave
    spec none is added. *)
Lemma reconcile_group group last cur :
  ∃ added,
    length (r_group (reconcile group last cur)) = (length group + length added)%nat ∧
    (get cfg Update = None → r_group (reconcile group last cur) = group ++ added) ∧
    (get cfg Leave = None → added = []) ∧
    Forall (λ s, destroyed s = false) added.
Proof.
  rewrite reconcile_loops.
  set (st1 := loop1 (map_to_list (own cur)) (mkRState group last [])).
  destruct (loop2_group (map_to_list (own (r_last st1))) st1) as (added & -> & Hn & Hall).
  exists added. split; [|split; [|split]].
  - unfold st1. by rewrite length_app, loop1_length.
  - intros Hu. unfold st1. by rewrite loop1_no_update.
  - done.
  - eapply Forall_impl; [done|]. by intros s [??].
Qed.


(** *** Every call targets a live shape, through a configured spec *)

Lemma call_ok_mono g1 g2 c :
  (∀ h id, live_at g1 h id → live_at g2 h id) → call_ok g1 c → call_ok g2 c.
Proof. intros Hm. destruct c; simpl; naive_solver. Qed.

Lemma live_at_onCurrent st k v h id :
  live_at (r_group st) h id → live_at (r_group (onCurrent st k v)) h id.
Proof.
  intros (s & Hs & Hi & Hd).
  destruct (onCurrent_slot st k v h s Hs) as (s' & Hs' & Hi' & Hd').
  exists s'. split; [done|]. split; congruence.
Qed.

Lemma live_at_onOutstanding st k v h id :
  live_at (r_group st) h id → live_at (r_group (onOutstanding st k v)) h id.
Proof.
  intros (s & Hs & Hi & Hd). exists s. split; [|done].
  rewrite onOutstanding_group. by apply lookup_app_l_Some.
Qed.

Lemma attrCall_ok group h id x :
  is_Some (get cfg Update) → live_at group h id →
  Forall (call_ok group) (attrCall h id x).
Proof. intros ??. destruct x; simpl; repeat constructor; done. Qed.

Lemma onCurrent_calls_ok st k v :
  Forall (call_ok (r_group st)) (r_calls st) →
  Forall (call_ok (r_group (onCurrent st k v))) (r_calls (onCurrent st k v)).
Proof.
  intros Hok.
  assert (Forall (call_ok (r_group (onCurrent st k v))) (r_calls st)) as Hold.
  { eapply Forall_impl; [done|]. intros c. apply call_ok_mono.
    intros ??. apply live_at_onCurrent. }
  assert (∀ h, findById (r_group st) k = Some h →
               live_at (r_group (onCurrent st k v)) h k) as Hlive.
  { intros h Hf. apply live_at_onCurrent.
    apply findById_Some in Hf as (s & ? & ? & ?). by exists s. }
  revert Hold Hlive. unfold onCurrent.
  repeat case_match; simplify_eq; simpl; intros Hold Hlive;
    rewrite ?Forall_app, ?Forall_cons, ?Forall_nil; simpl;
    repeat split; eauto using attrCall_ok.
Qed.

Lemma onOutstanding_calls_ok st k v :
  Forall (call_ok (r_group st)) (r_calls st) →
  Forall (call_ok (r_group (onOutstanding st k v))) (r_calls (onOutstanding st k v)).
Proof.
  intros Hok.
  assert (Forall (call_ok (r_group (onOutstanding st k v))) (r_calls st)) as Hold.
  { eapply Forall_impl; [done|]. intros c. apply call_ok_mono.
    intros ??. apply live_at_onOutstanding. }
  assert (is_Some (get cfg Leave) →
          live_at (r_group (onOutstanding st k v)) (length (r_group st)) k) as Hlive.
  { intros [c Hc]. exists (transient k v). split; [|done].
    rewrite onOutstanding_group, Hc. by apply list_lookup_middle. }
  revert Hold Hlive. unfold onOutstanding, addShape.
  repeat case_match; simplify_eq; simpl; intros Hold Hlive;
    rewrite ?Forall_app, ?Forall_cons, ?Forall_nil; simpl; naive_solver.
Qed.

Lemma loop1_calls_ok l st :
  Forall (call_ok (r_group st)) (r_calls st) →
  Forall (call_ok (r_group (loop1 l st))) (r_calls (loop1 l st)).
Proof.
  revert st. induction l as [|[k v] l IH]; intros st H0; [done|].
  rewrite loop1_cons. by apply IH, onCurrent_calls_ok.
Qed.

Lemma loop2_calls_ok l st :
  Forall (call_ok (r_group st)) (r_calls st) →
  Forall (call_ok (r_group (loop2 l st))) (r_calls (loop2 l st)).
Proof.
  revert st. induction l as [|[k v] l IH]; intros st H0; [done|].
  rewrite loop2_cons. by apply IH, onOutstanding_calls_ok.
Qed.

Lemma reconcile_calls_ok group last cur :
  Forall (call_ok (r_group (reconcile group last cur)))
         (r_calls (reconcile group last cur)).
Proof.
  rewrite reconcile_loops. apply loop2_calls_ok, loop1_calls_ok. constructor.
Qed.

End Reconciliation.

(** ** The drawing part *)

Section Drawing.
Context (geometry : Geometry).
Context (getLabelItemAttrs : Element → nat → list TextStyle).
Context (adjustLabel : Shape → Element → nat → Shape).

Local Abbreviation collectLabel := (collectLabel adjustLabel).
Local Abbreviation collectLabels := (collectLabels adjustLabel).
Local Abbreviation drawElement := (drawElement geometry getLabelItemAttrs adjustLabel).
Local Abbreviation drawElements := (drawElements geometry getLabelItemAttrs adjustLabel).
Local Abbreviation drawLabels := (drawLabels geometry getLabelItemAttrs adjustLabel).

Lemma DInv_init g0 : DInv g0 [] (mkDState g0 [] ∅).
Proof.
  split; simpl; try done.
  - intros h Hh. by apply elem_of_nil in Hh.
  - intros h s Hs _. left. by apply lookup_lt_Some in Hs.
  - intros h Hh. by apply elem_of_nil in Hh.
Qed.

Lemma collectLabel_inv g0 element st label idx pending :
  NoDup (label :: pending) → DInv g0 (label :: pending) st →
  DInv g0 pending (collectLabel element st label idx).
Proof.
  intros Hnd [Hlab Hcfg Hlive Hpend Hold Hlen].
  apply NoDup_cons in Hnd as [Hfresh Hnd].
  destruct (Hpend label) as [Hge Hlt]; [set_solver|].
  unfold collectLabel.
  destruct (d_group st !! label) as [drawn|] eqn:Hdrawn;
    [|by apply lookup_ge_None in Hdrawn; lia].
  set (adjusted := adjustLabel drawn element idx).
  assert (∀ h, h ∈ d_labels st → h ≠ label) as Hne.
  { intros h Hh ->. destruct (Hlab _ Hh) as [Hn _]. set_solver. }
  destruct (destroyed adjusted) eqn:Hd; split; simpl.
  - intros h Hh. destruct (Hlab _ Hh) as [Hn (s & Hs & Hds)].
    split; [set_solver|]. exists s. by rewrite list_lookup_insert_ne by (by apply not_eq_sym, Hne).
  - intros id a Ha. destruct (Hcfg _ _ Ha) as (h & s & Hh & Hs & ?).
    exists h, s. split; [done|].
    by rewrite list_lookup_insert_ne by (by apply not_eq_sym, Hne).
  - intros h s Hs Hds. destruct (decide (h = label)) as [->|Hhl].
    + rewrite list_lookup_insert_eq in Hs by done. congruence.
    + rewrite list_lookup_insert_ne in Hs by done.
      destruct (Hlive _ _ Hs Hds) as [?|[?|?]]; [by left| |by right; right].
      right; left. set_solver.
  - intros h Hh. rewrite length_insert. apply Hpend. set_solver.
  - intros h Hh. rewrite list_lookup_insert_ne by lia. by apply Hold.
  - by rewrite length_insert.
  - intros h Hh. apply elem_of_app in Hh as [Hh|Hh].
    + destruct (Hlab _ Hh) as [Hn (s & Hs & Hds)].
      split; [set_solver|]. exists s.
      by rewrite list_lookup_insert_ne by (by apply not_eq_sym, Hne).
    + apply list_elem_of_singleton in Hh as ->. split; [done|].
      exists adjusted. by rewrite list_lookup_insert_eq.
  - intros id a Ha.
    apply lookup_dict_set_Some in Ha as [(_ & <- & <-)|[[_ Ha]|[_ Ha]]].
    + exists label, adjusted. split; [set_solver|].
      by rewrite list_lookup_insert_eq.
    + destruct (Hcfg _ _ Ha) as (h & s & Hh & Hs & ?).
      exists h, s. split; [set_solver|].
      by rewrite list_lookup_insert_ne by (by apply not_eq_sym, Hne).
    + destruct (Hcfg _ _ Ha) as (h & s & Hh & Hs & ?).
      exists h, s. split; [set_solver|].
      by rewrite list_lookup_insert_ne by (by apply not_eq_sym, Hne).
  - intros h s Hs Hds. destruct (decide (h = label)) as [->|Hhl].
    + rewrite list_lookup_insert_eq in Hs by done. injection Hs as <-.
      right; right.
      destruct (decide (shape_id adjusted = "__proto__")) as [Hp|Hp]; [by right|].
      left. rewrite lookup_dict_set_eq by done. eauto.
    + rewrite list_lookup_insert_ne in Hs by done.
      destruct (Hlive _ _ Hs Hds) as [?|[?|[?|?]]]; [by left| | |].
      * right; left. set_solver.
      * right; right; left. by apply lookup_dict_set_is_Some.
      * by right; right; right.
  - intros h Hh. rewrite length_insert. apply Hpend. set_solver.
  - intros h Hh. rewrite list_lookup_insert_ne by lia. by apply Hold.
  - by rewrite length_insert.
Qed.

Lemma collectLabels_inv g0 element st ls idx :
  NoDup ls → DInv g0 ls st → DInv g0 [] (collectLabels element st ls idx).
Proof.
  revert st idx. induction ls as [|label ls IH]; intros st idx Hnd Hinv; [done|].
  simpl. apply IH.
  - by apply NoDup_cons in Hnd as [_ ?].
  - by apply collectLabel_inv.
Qed.

(** [drawLabelItem] appends live shapes and returns their handles. *)
Lemma drawItems_spec group md items idx group' ls :
  drawItems geometry group md items idx = Some (group', ls) →
  ∃ news, group' = group ++ news ∧ ls = seq (length group) (length news) ∧
          Forall (λ s, destroyed s = false) news.
Proof.
  revert group idx group' ls.
  induction items as [|a rest IH]; intros group idx group' ls; simpl.
  { intros [= <- <-]. exists []. by rewrite app_nil_r. }
  destruct (match md with DatumArray l => l !! idx | OneDatum d => Some d end)
    as [dataItem|]; simpl; [|done].
  destruct (drawItems _ _ md rest (S idx)) as [[group2 more]|] eqn:Hrec;
    simpl; [|done].
  intros [= <- <-]. apply IH in Hrec as (news & -> & -> & Hall).
  eexists (_ :: news). rewrite <- app_assoc. split; [done|]. split.
  - rewrite length_app. simpl. f_equal. f_equal. lia.
  - by constructor.
Qed.

Lemma DInv_drawn g0 st news :
  Forall (λ s, destroyed s = false) news →
  DInv g0 [] st →
  DInv g0 (seq (length (d_group st)) (length news))
       (mkDState (d_group st ++ news) (d_labels st) (d_cfgMap st)).
Proof.
  intros Hnews [Hlab Hcfg Hlive Hpend Hold Hlen]. split; simpl.
  - intros h Hh. destruct (Hlab _ Hh) as [_ (s & Hs & Hds)]. split.
    + rewrite elem_of_seq. apply lookup_lt_Some in Hs. lia.
    + exists s. split; [|done]. by apply lookup_app_l_Some.
  - intros id a Ha. destruct (Hcfg _ _ Ha) as (h & s & Hh & Hs & ?).
    exists h, s. split; [done|]. split; [|done]. by apply lookup_app_l_Some.
  - intros h s Hs Hds.
    destruct (decide (h < length (d_group st))%nat) as [Hin|Hout].
    + rewrite lookup_app_l in Hs by done.
      destruct (Hlive _ _ Hs Hds) as [?|[Hp|?]]; [by left| |by right; right].
      by apply elem_of_nil in Hp.
    + right; left. apply lookup_lt_Some in Hs. rewrite length_app in Hs.
      rewrite elem_of_seq. lia.
  - intros h Hh. rewrite elem_of_seq in Hh. rewrite length_app. lia.
  - intros h Hh. rewrite lookup_app_l by lia. by apply Hold.
  - rewrite length_app. lia.
Qed.

Lemma drawElement_inv g0 st element elementIdx st' :
  DInv g0 [] st → drawElement st element elementIdx = Some st' → DInv g0 [] st'.
Proof.
  intros Hinv. unfold drawElement, drawLabelItem.
  destruct (drawItems _ _ _ _ _) as [[group ls]|] eqn:Hd; simpl; [|done].
  intros [= <-]. apply drawItems_spec in Hd as (news & -> & -> & Hnews).
  apply collectLabels_inv; [apply NoDup_seq|]. by apply DInv_drawn.
Qed.

Lemma drawElements_inv g0 st els elementIdx st' :
  DInv g0 [] st → drawElements st els elementIdx = Some st' → DInv g0 [] st'.
Proof.
  revert st elementIdx. induction els as [|element rest IH];
    intros st elementIdx Hinv; simpl.
  { by intros [= <-]. }
  destruct (drawElement st element elementIdx) as [st1|] eqn:H1; simpl; [|done].
  apply IH. by eapply drawElement_inv.
Qed.

Lemma drawLabels_inv g0 st : drawLabels g0 = Some st → DInv g0 [] st.
Proof. apply drawElements_inv, DInv_init. Qed.

(** Every identity of the snapshot has a live shape in the group. *)
Lemma drawLabels_findById g0 st id :
  drawLabels g0 = Some st → is_Some (d_cfgMap st !! id) →
  is_Some (findById (d_group st) id).
Proof.
  intros Hd [a Ha]. apply drawLabels_inv in Hd.
  destruct (inv_cfgMap _ _ _ Hd _ _ Ha) as (h & s & _ & Hs & Hi & Hds & _).
  by eapply findById_is_Some.
Qed.


End Drawing.

(** Whether drawing throws depends on the elements and their data only,
    not on the group nor on what [adjustLabel] does to a label. *)
Lemma drawItems_is_Some geometry g g' md items idx :
  is_Some (drawItems geometry g md items idx) →
  is_Some (drawItems geometry g' md items idx).
Proof.
  revert g g' idx. induction items as [|a rest IH]; intros g g' idx; simpl; [eauto|].
  destruct (match md with DatumArray l => l !! idx | OneDatum d => Some d end)
    as [dataItem|]; simpl; [|done].
  intros Hs.
  destruct (drawItems geometry (g ++ _) md rest (S idx)) as [[g2 more]|] eqn:E;
    simpl in Hs; [|by destruct Hs].
  destruct (IH (g ++ [mkShape "text" (getLabelId geometry dataItem) "label" a
                              (Some dataItem) false])
               (g' ++ [mkShape "text" (getLabelId geometry dataItem) "label" a
                               (Some dataItem) false]) (S idx))
    as [[g3 more'] E'].
  { rewrite E. eauto. }
  rewrite E'. simpl. eauto.
Qed.

Lemma drawElements_is_Some geometry getLabelItemAttrs adjust adjust' st st' els idx :
  is_Some (drawElements geometry getLabelItemAttrs adjust st els idx) →
  is_Some (drawElements geometry getLabelItemAttrs adjust' st' els idx).
Proof.
  revert st st' idx. induction els as [|element rest IH]; intros st st' idx; simpl;
    [eauto|].
  unfold drawElement, drawLabelItem.
  destruct (drawItems geometry (d_group st) _ _ 0) as [[g ls]|] eqn:E; simpl;
    [|by intros []].
  destruct (drawItems_is_Some geometry (d_group st) (d_group st') (mappingData element)
              (getLabelItemAttrs element idx) 0) as [[g' ls'] E'].
  { rewrite E. eauto. }
  rewrite E'. simpl. apply IH.
Qed.

Lemma renderInner_is_Some geometry coord getDefaultAnimateCfg getLabelItemAttrs
    adjust adjust' this this' group group' :
  is_Some (renderInner geometry coord getDefaultAnimateCfg getLabelItemAttrs
             adjust this group) →
  is_Some (renderInner geometry coord getDefaultAnimateCfg getLabelItemAttrs
             adjust' this' group').
Proof.
  unfold renderInner, drawLabels. intros Hs.
  destruct (drawElements_is_Some geometry getLabelItemAttrs adjust adjust'
              (mkDState group [] ∅) (mkDState group' [] ∅) (elements geometry) 0)
    as [d' Hd'].
  { destruct (drawElements _ _ adjust _ _ _); [eauto|]. by destruct Hs. }
  rewrite Hd'. simpl. eauto.
Qed.

(** * The claims *)

Section Claims.
Context (geometry : Geometry) (coord : Coordinate).
Context (getDefaultAnimateCfg : string → Coordinate → AnimateCfg).
Context (getLabelItemAttrs : Element → nat → list TextStyle).
Context (adjustLabel : Shape → Element → nat → Shape).

Local Abbreviation cfg := (animateCfg geometry coord getDefaultAnimateCfg).
Local Abbreviation reconcile := (reconcile geometry coord getDefaultAnimateCfg).
Local Abbreviation renderInner :=
  (renderInner geometry coord getDefaultAnimateCfg getLabelItemAttrs adjustLabel).
Local Abbreviation drawLabels := (drawLabels geometry getLabelItemAttrs adjustLabel).

(** A successful pass is a successful drawing followed by [reconcile]. *)
Lemma renderInner_Some this group this' group' log :
  renderInner this group = Some (this', group', log) →
  ∃ drawn,
    drawLabels group = Some drawn ∧
    this' = mkLabelComponent (d_labels drawn) (d_cfgMap drawn) (d_cfgMap drawn) ∧
    group' = r_group (reconcile (d_group drawn) (lastLabelsCfgMap this) (d_cfgMap drawn)) ∧
    log = r_calls (reconcile (d_group drawn) (lastLabelsCfgMap this) (d_cfgMap drawn)).
Proof.
  unfold renderInner.
  destruct drawLabels as [drawn|]; simpl; [|done].
  intros [= <- <- <-]. by exists drawn.
Qed.

Ltac count_by H :=
  unfold count_calls; rewrite H; reflexivity.

(** C1.  Every identity of the previous snapshot is handled by exactly one
    of the two loops of the animation part: by the first one (and so as an
    update, never as a leave) when it is also in the current snapshot, by
    the second one (as a leave, never as an update) otherwise.  The
    matching animation is issued at most once, and exactly once when its
    spec is configured and, for an update, the live shape is found. *)
Theorem reconcile_classifies_previous group last cur id :
  is_Some (last !! id) →
  let log := r_calls (reconcile group last cur) in
  (is_Some (cur !! id) →
     count_calls (is_visit OverCurrent) id log = 1%nat ∧
     count_calls (is_visit OverOutstanding) id log = 0%nat ∧
     count_calls (is_animate Appear) id log = 0%nat ∧
     count_calls (is_animate Leave) id log = 0%nat ∧
     count_calls is_add_shape id log = 0%nat ∧
     (count_calls (is_animate Update) id log ≤ 1)%nat ∧
     (is_Some (findById group id) → is_Some (get cfg Update) →
      count_calls (is_animate Update) id log = 1%nat)) ∧
  (cur !! id = None →
     count_calls (is_visit OverCurrent) id log = 0%nat ∧
     count_calls (is_visit OverOutstanding) id log = 1%nat ∧
     count_calls (is_animate Appear) id log = 0%nat ∧
     count_calls (is_animate Update) id log = 0%nat ∧
     count_calls is_shape_attr id log = 0%nat ∧
     (count_calls (is_animate Leave) id log ≤ 1)%nat ∧
     (is_Some (get cfg Leave) → count_calls (is_animate Leave) id log = 1%nat)).
Proof.
  intros [oldAttrs Hl] log. split.
  - intros [a Hc].
    pose proof (reconcile_calls_current geometry coord getDefaultAnimateCfg
                  group last cur id a Hc) as E.
    unfold current_calls in E. rewrite (readSnapshot_own _ _ _ Hl) in E.
    simpl in E. fold log in E.
    destruct (findById group id) as [h|], (get cfg Update) as [c|];
      repeat split; try count_by E;
      try (unfold count_calls; rewrite E; simpl; lia);
      try (by intros [??]); try (by intros _ [??]).
  - intros Hc.
    destruct (reconcile_calls_outstanding geometry coord getDefaultAnimateCfg
                group last cur id oldAttrs Hc Hl) as (h & _ & E & _).
    unfold outstanding_calls in E. fold log in E.
    destruct (get cfg Leave) as [c|];
      repeat split; try count_by E;
      try (unfold count_calls; rewrite E; simpl; lia);
      try (by intros [??]).
Qed.

(** C2.  For an identity in both snapshots, with an update spec
    configured, the calls of the pass about it are exactly: the loop
    entry, [shape.attr] with the previous attributes, then one update
    animation whose target is the current attributes, both on the live
    shape of that identity.  So there is one update call and neither an
    appear nor a leave call; after the pass every attribute of the
    previous snapshot holds on the shape. *)
Theorem renderInner_update this group this' group' log id oldAttrs a c :
  renderInner this group = Some (this', group', log) →
  lastLabelsCfgMap this !! id = Some oldAttrs →
  labelsCfgMap this' !! id = Some a →
  get cfg Update = Some c →
  ∃ shape live,
    calls_of id log =
      [Visit OverCurrent id;
       ShapeAttr shape id oldAttrs;
       DoAnimate Update shape id c (Some a) coord] ∧
    group' !! shape = Some live ∧ shape_id live = id ∧ destroyed live = false ∧
    oldAttrs ⊆ attrs live ∧
    count_calls (is_animate Update) id log = 1%nat ∧
    count_calls (is_animate Appear) id log = 0%nat ∧
    count_calls (is_animate Leave) id log = 0%nat.
Proof.
  intros Hr Hl Hc Hu.
  apply renderInner_Some in Hr as (drawn & Hd & -> & -> & ->). simpl in Hc.
  destruct (drawLabels_findById _ _ _ _ _ id Hd) as [h Hf]; [eauto|].
  destruct (findById_Some _ _ _ Hf) as (s & Hs & Hi & Hds).
  pose proof (reconcile_calls_current geometry coord getDefaultAnimateCfg
                (d_group drawn) (lastLabelsCfgMap this) _ id a Hc) as E.
  unfold current_calls in E. rewrite Hf, (readSnapshot_own _ _ _ Hl), Hu in E.
  simpl in E.
  exists h, (attr oldAttrs s). split; [done|]. split.
  { rewrite (reconcile_lookup_current _ _ _ _ _ _ id a h s) by done.
    by rewrite (readSnapshot_own _ _ _ Hl), Hu. }
  repeat split; try done; try count_by E.
  simpl. apply map_union_subseteq_l.
Qed.

(** C3.  For an identity in the previous snapshot only, with a leave spec
    configured, the calls of the pass about it are exactly: the loop
    entry, one [addShape] of a text shape carrying the identity and the
    previous attributes, and one animation of that shape with
    [toAttrs = null].  The shape sits in a new slot of the group, and the
    identity is absent from the snapshot kept for the next pass. *)
Theorem renderInner_leave this group this' group' log id oldAttrs c :
  renderInner this group = Some (this', group', log) →
  lastLabelsCfgMap this !! id = Some oldAttrs →
  labelsCfgMap this' !! id = None →
  get cfg Leave = Some c →
  ∃ tempShape : nat,
    calls_of id log =
      [Visit OverOutstanding id;
       AddShape tempShape (mkShape "text" id "label" oldAttrs None false);
       DoAnimate Leave tempShape id c None coord] ∧
    (length group ≤ tempShape)%nat ∧
    group' !! tempShape = Some (mkShape "text" id "label" oldAttrs None false) ∧
    lastLabelsCfgMap this' !! id = None ∧
    count_calls is_add_shape id log = 1%nat ∧
    count_calls (is_animate Leave) id log = 1%nat.
Proof.
  intros Hr Hl Hc Hv.
  apply renderInner_Some in Hr as (drawn & Hd & -> & -> & ->). simpl in Hc.
  destruct (reconcile_calls_outstanding geometry coord getDefaultAnimateCfg
              (d_group drawn) (lastLabelsCfgMap this) _ id oldAttrs Hc Hl)
    as (h & Hle & E & Hg).
  unfold outstanding_calls in E. rewrite Hv in E.
  exists h. split; [done|]. split.
  { pose proof (inv_length _ _ _ (drawLabels_inv _ _ _ _ _ Hd)). lia. }
  split; [apply Hg; by rewrite Hv|].
  repeat split; try done; count_by E.
Qed.

(** X15.  For an identity in the current snapshot for which the read
    [lastLabelsCfgMap[id]] of line 98 is falsy, with an appear spec
    configured, the calls of the pass about it are exactly: the loop entry
    and one appear animation of its live shape, whose target is the
    attributes that shape carries.  So there is one appear call and
    neither an update nor a leave call.  The read is falsy when the
    identity is not a key of the previous snapshot and names nothing the
    snapshot inherits ([readSnapshot_plain]). *)
Theorem renderInner_appear this group this' group' log id c :
  renderInner this group = Some (this', group', log) →
  truthy (readSnapshot (lastLabelsCfgMap this) id) = false →
  is_Some (labelsCfgMap this' !! id) →
  get cfg Appear = Some c →
  ∃ shape live,
    calls_of id log =
      [Visit OverCurrent id;
       DoAnimate Appear shape id c (Some (attrs live)) coord] ∧
    group' !! shape = Some live ∧ shape_id live = id ∧ destroyed live = false ∧
    count_calls (is_animate Appear) id log = 1%nat ∧
    count_calls (is_animate Update) id log = 0%nat ∧
    count_calls (is_animate Leave) id log = 0%nat.
Proof.
  intros Hr Hl [a Hc] Hp.
  apply renderInner_Some in Hr as (drawn & Hd & -> & -> & ->). simpl in Hc.
  destruct (drawLabels_findById _ _ _ _ _ id Hd) as [h Hf]; [eauto|].
  destruct (findById_Some _ _ _ Hf) as (s & Hs & Hi & Hds).
  pose proof (reconcile_calls_current geometry coord getDefaultAnimateCfg
                (d_group drawn) (lastLabelsCfgMap this) _ id a Hc) as E.
  unfold current_calls, getAttrs in E. rewrite Hf, Hl, Hp, Hs in E. simpl in E.
  exists h, s. split; [done|]. split.
  { rewrite (reconcile_lookup_current _ _ _ _ _ _ id a h s) by done.
    by rewrite Hl. }
  repeat split; try done; count_by E.
Qed.

(** C7.  When the group has no live shape for an identity of the current
    snapshot, the only call of the animation part about it is the entry
    of the first loop: no animation, no [attr], no transient shape, no
    entry of the leave loop; and the identity is gone from what is left of
    the previous snapshot. *)
Theorem reconcile_missing_shape group last cur id :
  findById group id = None →
  is_Some (cur !! id) →
  calls_of id (r_calls (reconcile group last cur)) = [Visit OverCurrent id] ∧
  r_last (reconcile group last cur) !! id = None ∧
  count_calls (is_visit OverOutstanding) id (r_calls (reconcile group last cur)) = 0%nat ∧
  (∀ ph, count_calls (is_animate ph) id (r_calls (reconcile group last cur)) = 0%nat).
Proof.
  intros Hf [a Hc].
  pose proof (reconcile_calls_current geometry coord getDefaultAnimateCfg
                group last cur id a Hc) as E.
  unfold current_calls in E. rewrite Hf in E.
  split; [done|]. split; [by rewrite reconcile_last, Hc|].
  split; [count_by E|]. intros ph. destruct ph; count_by E.
Qed.

Lemma collectLabel_destroyed element st label idx drawn :
  d_group st !! label = Some drawn →
  destroyed (adjustLabel drawn element idx) = true →
  d_labels (collectLabel adjustLabel element st label idx) = d_labels st ∧
  d_cfgMap (collectLabel adjustLabel element st label idx) = d_cfgMap st.
Proof. intros Hs Hd. unfold collectLabel. by rewrite Hs, Hd. Qed.

(** C8.  A shape that is destroyed when the pass ends is not in the list
    of labels of the pass and is the target of no call of the animation
    part; its identity is in the snapshot only if some other, surviving
    label of the list carries it.  Drawing and collecting return
    normally in its presence: the pass did return a result. *)
Theorem renderInner_skips_destroyed this group this' group' log h s :
  renderInner this group = Some (this', group', log) →
  group' !! h = Some s →
  destroyed s = true →
  (h ∉ labels this') ∧
  (∀ c, c ∈ log → call_shape c ≠ Some h) ∧
  (is_Some (labelsCfgMap this' !! shape_id s) →
   ∃ h' s', h' ∈ labels this' ∧ h' ≠ h ∧ group' !! h' = Some s' ∧
            shape_id s' = shape_id s ∧ destroyed s' = false).
Proof.
  intros Hr Hs Hds.
  apply renderInner_Some in Hr as (drawn & Hd & -> & -> & ->). simpl.
  pose proof (drawLabels_inv _ _ _ _ _ Hd) as Hinv.
  split; [|split].
  - intros Hh. destruct (inv_labels _ _ _ Hinv _ Hh) as [_ (s0 & Hs0 & Hd0)].
    destruct (reconcile_slot geometry coord getDefaultAnimateCfg _
                (lastLabelsCfgMap this) (d_cfgMap drawn) _ _ Hs0)
      as (s' & Hs' & _ & Hd').
    congruence.
  - intros c Hc Hsh.
    pose proof (reconcile_calls_ok geometry coord getDefaultAnimateCfg
                  (d_group drawn) (lastLabelsCfgMap this) (d_cfgMap drawn)) as Hok.
    rewrite Forall_forall in Hok. specialize (Hok c Hc).
    destruct c; simpl in *; simplify_eq;
      destruct Hok as [_ (s' & Hs' & _ & Hd')]; congruence.
  - intros [a Ha].
    destruct (inv_cfgMap _ _ _ Hinv _ _ Ha) as (h' & s0 & Hh' & Hs0 & Hi0 & Hd0 & _).
    destruct (reconcile_slot geometry coord getDefaultAnimateCfg _
                (lastLabelsCfgMap this) (d_cfgMap drawn) _ _ Hs0)
      as (s' & Hs' & Hi' & Hd').
    exists h', s'. split; [done|]. split; [intros ->; congruence|].
    split; [done|]. split; congruence.
Qed.


End Claims.

(** ** Identity resolver *)

Lemma ToString_inj_same_kind v w :
  same_kind v w → ToString v = ToString w → v = w.
Proof.
  destruct v as [| |[]|n|s], w as [| |[]|m|t]; simpl; try done.
  - intros _ H. by apply (inj pretty) in H as ->.
  - by intros _ ->.
Qed.

Lemma getLabelId_line geometry data :
  type geometry = "line" ∨ type geometry = "area" →
  getLabelId geometry data =
  getElementId geometry data +:+ " " +:+
    ToString (getField (_origin data) (xScale_field geometry)).
Proof. unfold getLabelId. by intros [-> | ->]. Qed.

(** C6.  What the resolver computes, by geometry kind: the base identity
    followed by a space and the x-field value for a line or an area; by a
    space, the x-field value, a dash and the y-field value for a path; the
    base identity alone for every other kind. *)
Theorem getLabelId_by_type geometry data :
  let base := getElementId geometry data in
  let x := ToString (getField (_origin data) (xScale_field geometry)) in
  let y := ToString (getField (_origin data) (yScale_field geometry)) in
  (type geometry = "line" ∨ type geometry = "area" →
   getLabelId geometry data = base +:+ " " +:+ x) ∧
  (type geometry = "path" →
   getLabelId geometry data = base +:+ " " +:+ x +:+ "-" +:+ y) ∧
  (type geometry ≠ "line" → type geometry ≠ "area" → type geometry ≠ "path" →
   getLabelId geometry data = base).
Proof.
  intros base x y. split; [apply getLabelId_line|]. split.
  - unfold getLabelId. by intros ->.
  - intros H1 H2 H3. unfold getLabelId.
    apply String.eqb_neq in H1, H2, H3. by rewrite H1, H2, H3.
Qed.

(** C5, as amended.  The resolver is a function of the base identity, the
    geometry kind and the x- and y-field values.  For a line or an area,
    two data items with the same base identity get the same identity
    exactly when their x-field values have the same string form; so two
    different x-field values of the same primitive kind give different
    identities. *)
Theorem getLabelId_line_distinct geometry d1 d2 :
  let x1 := getField (_origin d1) (xScale_field geometry) in
  let x2 := getField (_origin d2) (xScale_field geometry) in
  let y1 := getField (_origin d1) (yScale_field geometry) in
  let y2 := getField (_origin d2) (yScale_field geometry) in
  getElementId geometry d1 = getElementId geometry d2 →
  (x1 = x2 → y1 = y2 → getLabelId geometry d1 = getLabelId geometry d2) ∧
  (type geometry = "line" ∨ type geometry = "area" →
   (getLabelId geometry d1 = getLabelId geometry d2 ↔ ToString x1 = ToString x2) ∧
   (same_kind x1 x2 → x1 ≠ x2 → getLabelId geometry d1 ≠ getLabelId geometry d2)).
Proof.
  intros x1 x2 y1 y2 Hbase. split.
  - intros Hx Hy. unfold getLabelId. fold x1 x2 y1 y2. by rewrite Hbase, Hx, Hy.
  - intros Hty.
    assert (getLabelId geometry d1 = getLabelId geometry d2 ↔ ToString x1 = ToString x2)
      as Hiff.
    { rewrite !getLabelId_line by done. fold x1 x2. rewrite Hbase. split.
      - intros H. apply (inj (String.append _)) in H.
        by apply (inj (String.append " ")) in H.
      - by intros ->. }
    split; [done|]. intros Hk Hne Heq. apply Hne.
    apply ToString_inj_same_kind; [done|]. by apply Hiff.
Qed.

(** ** Registry *)

Lemma getLabelComponent_register_same {Ctor : Type} (t : string) (c : Ctor)
    (m : Dict Ctor) :
  Registry.getLabelComponent t (Registry.registerLabelComponent t c m)
  = Registry.Component c.
Proof.
  unfold Registry.getLabelComponent, Registry.registerLabelComponent.
  rewrite own_dict_set, proto_dict_set.
  destruct (decide (t = "__proto__")) as [->|Ht].
  - by rewrite own_plain.
  - by rewrite lookup_insert_eq.
Qed.

Lemma getLabelComponent_register_other {Ctor : Type} (t k : string) (c : Ctor)
    (m : Dict Ctor) :
  k ≠ t → k ≠ "__proto__" →
  Registry.getLabelComponent t (Registry.registerLabelComponent k c m)
  = Registry.getLabelComponent t m.
Proof.
  intros Hk Hp. unfold Registry.getLabelComponent, Registry.registerLabelComponent.
  rewrite own_dict_set, proto_dict_set, !decide_False by done.
  by rewrite lookup_insert_ne.
Qed.

(** Registrations that name neither [t] nor [__proto__] leave the lookup
    of [t] as it was. *)
Lemma registerAll_unnamed {Ctor : Type} (t : string) (regs : list (string * Ctor))
    (m : Dict Ctor) :
  t ∉ regs.*1 → "__proto__" ∉ regs.*1 →
  Registry.getLabelComponent t (Registry.registerAll regs m)
  = Registry.getLabelComponent t m.
Proof.
  revert m. induction regs as [|[k v] regs IH]; intros m Ht Hp; [done|].
  change (((k, v) :: regs).*1) with (k :: regs.*1) in Ht, Hp.
  apply not_elem_of_cons in Ht as [Hkt Ht], Hp as [Hkp Hp].
  change (Registry.registerAll ((k, v) :: regs) m)
    with (Registry.registerAll regs (Registry.registerLabelComponent k v m)).
  rewrite IH by done. by apply getLabelComponent_register_other.
Qed.

(** C10, amended.  A lookup after a registration returns the constructor
    just registered, also when it replaces an earlier one for the same
    type; a type that no registration of the program names is not found,
    provided it is not the name of a member of [Object.prototype] and no
    registration names [__proto__]. *)
Theorem getLabelComponent_registered {Ctor : Type} (t : string) (c c' : Ctor)
    (m : Dict Ctor) (regs : list (string * Ctor)) :
  Registry.getLabelComponent t (Registry.registerLabelComponent t c m)
  = Registry.Component c ∧
  Registry.getLabelComponent t
    (Registry.registerLabelComponent t c' (Registry.registerLabelComponent t c m))
    = Registry.Component c' ∧
  (t ∉ regs.*1 → "__proto__" ∉ regs.*1 → t ∉ objectPrototypeMembers →
   Registry.getLabelComponent t (Registry.registerAll regs Registry.LABEL_CONFIG_MAP)
   = Registry.Undefined).
Proof.
  split; [apply getLabelComponent_register_same|].
  split; [apply getLabelComponent_register_same|].
  intros Ht Hp Hm. rewrite registerAll_unnamed by done.
  unfold Registry.getLabelComponent, Registry.LABEL_CONFIG_MAP. simpl.
  rewrite lookup_empty. by rewrite bool_decide_eq_false_2.
Qed.

(** * The claims on the concrete pass *)

Lemma demo_renderInner_Some animate :
  demo_renderInner animate =
  Some ((demo_pass animate).1.1, (demo_pass animate).1.2, (demo_pass animate).2).
Proof. destruct animate; vm_compute; reflexivity. Defined.

Lemma reconcile_classifies_previous_witness :
  let log := r_calls (reconcile (demo_geometry "line" true) demo_coord
                        demo_getDefaultAnimateCfg
                        [demo_label "1991" 20 false] demo_last
                        {[ "Lon 1991" := demo_attrs 20 ]}) in
  count_calls (is_visit OverCurrent) "Lon 1991" log = 1%nat ∧
  count_calls (is_visit OverOutstanding) "Lon 1991" log = 0%nat ∧
  count_calls (is_animate Update) "Lon 1991" log = 1%nat ∧
  count_calls (is_animate Leave) "Lon 1991" log = 0%nat.
Proof.
  intros log.
  destruct (reconcile_classifies_previous (demo_geometry "line" true) demo_coord
              demo_getDefaultAnimateCfg [demo_label "1991" 20 false] demo_last
              {[ "Lon 1991" := demo_attrs 20 ]} "Lon 1991") as [Hboth _].
  { vm_compute. eauto. }
  destruct Hboth as (H1 & H2 & _ & H4 & _ & _ & H7).
  { vm_compute. eauto. }
  split; [exact H1|]. split; [exact H2|]. split; [|exact H4].
  apply H7; vm_compute; eauto.
Defined.

Lemma renderInner_update_witness :
  ∃ shape live,
    calls_of "Lon 1991" (demo_pass true).2 =
      [Visit OverCurrent "Lon 1991";
       ShapeAttr shape "Lon 1991" (demo_attrs 10);
       DoAnimate Update shape "Lon 1991" demo_move (Some (demo_attrs 20)) demo_coord] ∧
    (demo_pass true).1.2 !! shape = Some live ∧ shape_id live = "Lon 1991" ∧
    destroyed live = false ∧ demo_attrs 10 ⊆ attrs live ∧
    count_calls (is_animate Update) "Lon 1991" (demo_pass true).2 = 1%nat ∧
    count_calls (is_animate Appear) "Lon 1991" (demo_pass true).2 = 0%nat ∧
    count_calls (is_animate Leave) "Lon 1991" (demo_pass true).2 = 0%nat.
Proof.
  apply (renderInner_update (demo_geometry "line" true) demo_coord
           demo_getDefaultAnimateCfg demo_getLabelItemAttrs demo_adjustLabel
           demo_this [] (demo_pass true).1.1).
  - apply demo_renderInner_Some.
  - vm_compute; reflexivity.
  - vm_compute; reflexivity.
  - vm_compute; reflexivity.
Defined.

Lemma renderInner_leave_witness :
  ∃ tempShape : nat,
    calls_of "Lon 1990" (demo_pass true).2 =
      [Visit OverOutstanding "Lon 1990";
       AddShape tempShape (mkShape "text" "Lon 1990" "label" (demo_attrs 5) None false);
       DoAnimate Leave tempShape "Lon 1990" demo_fade_out None demo_coord] ∧
    (length ([] : Group) ≤ tempShape)%nat ∧
    (demo_pass true).1.2 !! tempShape =
      Some (mkShape "text" "Lon 1990" "label" (demo_attrs 5) None false) ∧
    lastLabelsCfgMap (demo_pass true).1.1 !! "Lon 1990" = None ∧
    count_calls is_add_shape "Lon 1990" (demo_pass true).2 = 1%nat ∧
    count_calls (is_animate Leave) "Lon 1990" (demo_pass true).2 = 1%nat.
Proof.
  apply (renderInner_leave (demo_geometry "line" true) demo_coord
           demo_getDefaultAnimateCfg demo_getLabelItemAttrs demo_adjustLabel
           demo_this [] (demo_pass true).1.1).
  - apply demo_renderInner_Some.
  - vm_compute; reflexivity.
  - vm_compute; reflexivity.
  - vm_compute; reflexivity.
Defined.

Lemma renderInner_appear_witness :
  ∃ shape live,
    calls_of "Lon 1992" (demo_pass true).2 =
      [Visit OverCurrent "Lon 1992";
       DoAnimate Appear shape "Lon 1992" demo_fade_in (Some (attrs live)) demo_coord] ∧
    (demo_pass true).1.2 !! shape = Some live ∧ shape_id live = "Lon 1992" ∧
    destroyed live = false ∧
    count_calls (is_animate Appear) "Lon 1992" (demo_pass true).2 = 1%nat ∧
    count_calls (is_animate Update) "Lon 1992" (demo_pass true).2 = 0%nat ∧
    count_calls (is_animate Leave) "Lon 1992" (demo_pass true).2 = 0%nat.
Proof.
  apply (renderInner_appear (demo_geometry "line" true) demo_coord
           demo_getDefaultAnimateCfg demo_getLabelItemAttrs demo_adjustLabel
           demo_this [] (demo_pass true).1.1).
  - apply demo_renderInner_Some.
  - vm_compute; reflexivity.
  - vm_compute; eauto.
  - vm_compute; reflexivity.
Defined.

(** C4.  The code departs from the claim where the identity is the name
    of something the previous snapshot inherits.  On the first pass of a
    column chart whose series is named "constructor", that identity is in
    the current snapshot only and an appear spec is configured; but the
    read [lastLabelsCfgMap["constructor"]] of line 98 finds the member
    every object inherits from [Object.prototype], which is truthy: the
    pass takes the branch meant for updated shapes, hands that member to
    [shape.attr] and issues an update animation, and no appear
    animation. *)
Lemma renderInner_appear_inherited :
  renderInner demo_inherited_geometry demo_coord demo_getDefaultAnimateCfg
              demo_getLabelItemAttrs demo_adjustLabel demo_fresh []
    = Some demo_inherited ∧
  lastLabelsCfgMap demo_fresh !! "constructor" = None ∧
  is_Some (labelsCfgMap demo_inherited.1.1 !! "constructor") ∧
  get (animateCfg demo_inherited_geometry demo_coord demo_getDefaultAnimateCfg) Appear
    = Some demo_fade_in ∧
  calls_of "constructor" demo_inherited.2 =
    [Visit OverCurrent "constructor";
     ShapeAttrInherited 0 "constructor" (InheritedBuiltin "constructor");
     DoAnimate Update 0 "constructor" demo_move (Some (demo_attrs 20)) demo_coord] ∧
  count_calls (is_animate Appear) "constructor" demo_inherited.2 = 0%nat ∧
  count_calls (is_animate Update) "constructor" demo_inherited.2 = 1%nat.
Proof.
  split; [vm_compute; reflexivity|]. split; [vm_compute; reflexivity|].
  split; [vm_compute; eauto|]. repeat split; vm_compute; reflexivity.
Qed.

Lemma reconcile_missing_shape_witness :
  let st := reconcile (demo_geometry "line" true) demo_coord demo_getDefaultAnimateCfg
                      [] demo_last {[ "Lon 1991" := demo_attrs 20 ]} in
  calls_of "Lon 1991" (r_calls st) = [Visit OverCurrent "Lon 1991"] ∧
  r_last st !! "Lon 1991" = None ∧
  count_calls (is_visit OverOutstanding) "Lon 1991" (r_calls st) = 0%nat ∧
  (∀ ph, count_calls (is_animate ph) "Lon 1991" (r_calls st) = 0%nat).
Proof.
  apply (reconcile_missing_shape (demo_geometry "line" true) demo_coord
           demo_getDefaultAnimateCfg [] demo_last {[ "Lon 1991" := demo_attrs 20 ]}).
  - reflexivity.
  - vm_compute; eauto.
Defined.

Lemma renderInner_skips_destroyed_witness :
  (2%nat ∉ labels (demo_pass true).1.1) ∧
  (∀ c, c ∈ (demo_pass true).2 → call_shape c ≠ Some 2%nat) ∧
  (is_Some (labelsCfgMap (demo_pass true).1.1 !! shape_id (demo_label "1993" 0 true)) →
   ∃ h' s', h' ∈ labels (demo_pass true).1.1 ∧ h' ≠ 2%nat ∧
            (demo_pass true).1.2 !! h' = Some s' ∧
            shape_id s' = shape_id (demo_label "1993" 0 true) ∧ destroyed s' = false).
Proof.
  apply (renderInner_skips_destroyed (demo_geometry "line" true) demo_coord
           demo_getDefaultAnimateCfg demo_getLabelItemAttrs demo_adjustLabel
           demo_this []).
  - apply demo_renderInner_Some.
  - vm_compute; reflexivity.
  - reflexivity.
Defined.


Lemma getLabelId_by_type_witness :
  getLabelId (demo_geometry "area" true) demo_year_string = "Lon 1991" ∧
  getLabelId (demo_geometry "path" true) demo_year_string = "Lon 1991-20" ∧
  getLabelId (demo_geometry "interval" true) demo_year_string = "Lon".
Proof.
  split; [|split].
  - apply (getLabelId_by_type (demo_geometry "area" true) demo_year_string).
    right; reflexivity.
  - apply (getLabelId_by_type (demo_geometry "path" true) demo_year_string).
    reflexivity.
  - apply (getLabelId_by_type (demo_geometry "interval" true) demo_year_string);
      vm_compute; discriminate.
Defined.

Lemma getLabelId_line_distinct_witness :
  getLabelId (demo_geometry "line" true) (demo_datum (VStr "1991") 20 "Lon") ≠
  getLabelId (demo_geometry "line" true) (demo_datum (VStr "1992") 30 "Lon").
Proof.
  apply (getLabelId_line_distinct (demo_geometry "line" true)
           (demo_datum (VStr "1991") 20 "Lon") (demo_datum (VStr "1992") 30 "Lon")).
  - reflexivity.
  - left; reflexivity.
  - vm_compute; exact I.
  - vm_compute; discriminate.
Defined.

(** C5, as stated, fails.  On a line, the number 1991 and the string "1991"
    are different x-field values of data items with one base identity, and
    resolve to one identity; on a path, the points ("a-b", "c") and
    ("a", "b-c") do. *)
Lemma getLabelId_collision :
  (getElementId (demo_geometry "line" true) demo_year_number =
   getElementId (demo_geometry "line" true) demo_year_string ∧
   getField (_origin demo_year_number) "year" ≠ getField (_origin demo_year_string) "year" ∧
   getLabelId (demo_geometry "line" true) demo_year_number =
   getLabelId (demo_geometry "line" true) demo_year_string) ∧
  (getField (_origin (demo_point "a-b" "c")) "year" ≠
   getField (_origin (demo_point "a" "b-c")) "year" ∧
   getField (_origin (demo_point "a-b" "c")) "value" ≠
   getField (_origin (demo_point "a" "b-c")) "value" ∧
   getLabelId (demo_geometry "path" true) (demo_point "a-b" "c") =
   getLabelId (demo_geometry "path" true) (demo_point "a" "b-c")).
Proof.
  repeat split; try (vm_compute; reflexivity); vm_compute; discriminate.
Qed.

Lemma getLabelComponent_registered_witness :
  Registry.getLabelComponent "line"
    (Registry.registerLabelComponent "line" 1%nat Registry.LABEL_CONFIG_MAP)
  = Registry.Component 1%nat ∧
  Registry.getLabelComponent "line"
    (Registry.registerLabelComponent "line" 2%nat
       (Registry.registerLabelComponent "line" 1%nat Registry.LABEL_CONFIG_MAP))
    = Registry.Component 2%nat ∧
  Registry.getLabelComponent "line"
    (Registry.registerAll [("bar", 3%nat); ("pie", 4%nat)] Registry.LABEL_CONFIG_MAP)
    = Registry.Undefined.
Proof.
  destruct (getLabelComponent_registered "line" 1%nat 2%nat Registry.LABEL_CONFIG_MAP
              [("bar", 3%nat); ("pie", 4%nat)]) as (H1 & H2 & H3).
  split; [exact H1|]. split; [exact H2|].
  apply H3; vm_compute; intros H;
    repeat (apply elem_of_cons in H as [H|H]; [discriminate|]);
    by apply elem_of_nil in H.
Defined.

(** C10, as stated, fails.  Before any registration the lookup of the type
    "constructor" finds the member of that name that every object
    inherits from [Object.prototype]; and once a constructor has been
    registered under the type [__proto__], the lookup of a type that was
    never registered, such as "name", reads that member of the
    constructor. *)
Lemma getLabelComponent_inherited :
  (("constructor" ∉ ([] : list (string * nat)).*1) ∧
   Registry.getLabelComponent "constructor"
     (Registry.registerAll [] (Registry.LABEL_CONFIG_MAP (Ctor := nat)))
   = Registry.ObjectPrototypeMember "constructor" ∧
   Registry.getLabelComponent "constructor"
     (Registry.registerAll [] (Registry.LABEL_CONFIG_MAP (Ctor := nat)))
   ≠ Registry.Undefined) ∧
  (("name" ∉ [("__proto__", 1%nat)].*1) ∧
   Registry.getLabelComponent "name"
     (Registry.registerAll [("__proto__", 1%nat)] Registry.LABEL_CONFIG_MAP)
   = Registry.MemberOf 1%nat "name").
Proof.
  split; [split; [|split]|split].
  - apply not_elem_of_nil.
  - vm_compute; reflexivity.
  - vm_compute; discriminate.
  - vm_compute. intros H. apply elem_of_cons in H as [H|H]; [discriminate|].
    by apply elem_of_nil in H.
  - vm_compute; reflexivity.
Qed.

(** * Further properties of the code *)

(** ** [drawLabelItem] *)

Section DrawLabelItem.
Context (geometry : Geometry).
Context (getLabelItemAttrs : Element → nat → list TextStyle).

Lemma drawItems_Some_iff group md items idx :
  is_Some (drawItems geometry group md items idx) ↔
  ∀ k, (k < length items)%nat → is_Some (dataItemAt md (idx + k)).
Proof.
  revert group idx. induction items as [|a rest IH]; intros group idx; simpl.
  { split; [intros _ k Hk; lia|eauto]. }
  split.
  - intros Hs k Hk.
    destruct (match md with DatumArray l => l !! idx | OneDatum d => Some d end)
      as [dataItem|] eqn:Hd; simpl in Hs; [|by destruct Hs].
    destruct k as [|k]; [rewrite Nat.add_0_r; unfold dataItemAt; rewrite Hd; eauto|].
    destruct (drawItems geometry _ md rest (S idx)) as [[g2 more]|] eqn:E;
      simpl in Hs; [|by destruct Hs].
    replace (idx + S k)%nat with (S idx + k)%nat by lia.
    eapply IH; [rewrite E; eauto|lia].
  - intros Hall.
    destruct (Hall 0%nat) as [dataItem Hd]; [lia|].
    rewrite Nat.add_0_r in Hd. unfold dataItemAt in Hd. rewrite Hd. simpl.
    destruct (proj2 (IH (group ++ [mkShape "text" (getLabelId geometry dataItem)
                                            "label" a (Some dataItem) false]) (S idx)))
      as [[g2 more] E].
    { intros k Hk. replace (S idx + k)%nat with (idx + S k)%nat by lia.
      apply Hall. lia. }
    rewrite E. simpl. eauto.
Qed.

(** X1.  [drawLabelItem] throws exactly when the element's mapping data is
    an array with fewer entries than the chart type returned attribute
    sets; with a single datum, or with no attribute set, it never does. *)
Theorem drawLabelItem_Some_iff group element elementIdx :
  is_Some (drawLabelItem geometry getLabelItemAttrs group element elementIdx) ↔
  match mappingData element with
  | OneDatum _ => True
  | DatumArray l => (length (getLabelItemAttrs element elementIdx) ≤ length l)%nat
  end.
Proof.
  unfold drawLabelItem. rewrite drawItems_Some_iff. simpl.
  destruct (mappingData element) as [d|l]; simpl.
  - split; [done|eauto].
  - split.
    + intros Hall.
      destruct (length (getLabelItemAttrs element elementIdx)) as [|n]; [lia|].
      destruct (Hall n) as [d Hd]; [lia|].
      apply lookup_lt_Some in Hd. lia.
    + intros Hle k Hk. apply lookup_lt_is_Some. lia.
Qed.

Lemma drawItems_shapes group md items idx group' ls :
  drawItems geometry group md items idx = Some (group', ls) →
  ls = seq (length group) (length items) ∧
  length group' = (length group + length items)%nat ∧
  (∀ h s, group !! h = Some s → group' !! h = Some s) ∧
  (∀ k a, items !! k = Some a →
     ∃ d, dataItemAt md (idx + k) = Some d ∧
          group' !! (length group + k)%nat = Some (labelShape geometry a d)).
Proof.
  revert group idx group' ls.
  induction items as [|a rest IH]; intros group idx group' ls; simpl.
  { intros [= <- <-]. split; [done|]. split; [lia|]. split; [done|].
    intros k a Hk. by rewrite lookup_nil in Hk. }
  destruct (match md with DatumArray l => l !! idx | OneDatum d => Some d end)
    as [dataItem|] eqn:Hd; simpl; [|done].
  destruct (drawItems geometry _ md rest (S idx)) as [[g2 more]|] eqn:E;
    simpl; [|done].
  intros [= <- <-]. apply IH in E as (-> & Hlen & Hold & Hnew).
  rewrite length_app in *. simpl in *.
  split; [f_equal; f_equal; lia|]. split; [lia|]. split.
  - intros h s Hs. apply Hold. by apply lookup_app_l_Some.
  - intros [|k] a' Hk; simpl in Hk.
    + injection Hk as <-. exists dataItem. rewrite !Nat.add_0_r.
      split; [done|]. apply Hold. by apply list_lookup_middle.
    + destruct (Hnew k a' Hk) as (d & Hd' & Hg). exists d.
      replace (idx + S k)%nat with (S idx + k)%nat by lia.
      split; [done|]. by replace (length group + S k)%nat
                            with (length group + 1 + k)%nat by lia.
Qed.

(** X2.  When it returns, [drawLabelItem] has appended one live text shape
    named 'label' per attribute set, in order, each carrying its attribute
    set, the datum at the same position (the single datum if the mapping
    data is not an array) as origin, and that datum's label identity; the
    labels returned are the new slots, and no shape already in the group is
    touched. *)
Theorem drawLabelItem_shapes group element elementIdx group' ls :
  drawLabelItem geometry getLabelItemAttrs group element elementIdx = Some (group', ls) →
  let items := getLabelItemAttrs element elementIdx in
  ls = seq (length group) (length items) ∧
  length group' = (length group + length items)%nat ∧
  (∀ h s, group !! h = Some s → group' !! h = Some s) ∧
  (∀ k a, items !! k = Some a →
     ∃ d, dataItemAt (mappingData element) k = Some d ∧
          group' !! (length group + k)%nat = Some (labelShape geometry a d)).
Proof. intros Hd. by apply drawItems_shapes in Hd. Qed.

End DrawLabelItem.

(** ** The labels and the snapshot of a pass *)

Section Labels.
Context (geometry : Geometry).
Context (getLabelItemAttrs : Element → nat → list TextStyle).
Context (adjustLabel : Shape → Element → nat → Shape).

Local Abbreviation collectLabel := (collectLabel adjustLabel).
Local Abbreviation collectLabels := (collectLabels adjustLabel).
Local Abbreviation drawElement := (drawElement geometry getLabelItemAttrs adjustLabel).
Local Abbreviation drawElements := (drawElements geometry getLabelItemAttrs adjustLabel).
Local Abbreviation drawLabels := (drawLabels geometry getLabelItemAttrs adjustLabel).
Local Abbreviation countItems := (countItems getLabelItemAttrs).
Local Abbreviation keeps_labels := (keeps_labels adjustLabel).

Lemma collectLabel_length element st label idx :
  length (d_group (collectLabel element st label idx)) = length (d_group st).
Proof.
  unfold collectLabel. destruct (d_group st !! label); [|done].
  case_match; simpl; apply length_insert.
Qed.

Lemma collectLabels_length element st ls idx :
  length (d_group (collectLabels element st ls idx)) = length (d_group st).
Proof.
  revert st idx. induction ls as [|label ls IH]; intros st idx; simpl; [done|].
  by rewrite IH, collectLabel_length.
Qed.

Lemma collectLabel_lookup_ne element st label idx h :
  h ≠ label → d_group (collectLabel element st label idx) !! h = d_group st !! h.
Proof.
  intros Hne. unfold collectLabel. destruct (d_group st !! label); [|done].
  case_match; simpl; by apply list_lookup_insert_ne.
Qed.

Lemma collectLabels_kept element st a n idx :
  ∃ kept, d_labels (collectLabels element st (seq a n) idx) = d_labels st ++ kept ∧
          kept `sublist_of` seq a n.
Proof.
  revert st a idx. induction n as [|n IH]; intros st a idx; simpl.
  { exists []. by rewrite app_nil_r. }
  destruct (IH (collectLabel element st a idx) (S a) (S idx)) as (kept & -> & Hsub).
  unfold collectLabel. destruct (d_group st !! a); [|by exists kept; split; [|constructor]].
  case_match; simpl.
  - exists kept. split; [done|]. by constructor.
  - exists (a :: kept). rewrite <- app_assoc. split; [done|]. by constructor.
Qed.

Lemma collectLabels_all element st a n idx :
  keeps_labels →
  (∀ h, (a ≤ h < a + n)%nat → ∃ s, d_group st !! h = Some s ∧ destroyed s = false) →
  d_labels (collectLabels element st (seq a n) idx) = d_labels st ++ seq a n.
Proof.
  intros Hk. revert st a idx. induction n as [|n IH]; intros st a idx Hlive; simpl.
  { by rewrite app_nil_r. }
  rewrite IH.
  - unfold collectLabel. destruct (Hlive a) as (s & -> & Hs); [lia|].
    rewrite (Hk _ _ _ Hs). simpl. by rewrite <- app_assoc.
  - intros h Hh. rewrite collectLabel_lookup_ne by lia. apply Hlive. lia.
Qed.

Lemma drawElements_length st els elementIdx st' :
  drawElements st els elementIdx = Some st' →
  length (d_group st') = (length (d_group st) + countItems els elementIdx)%nat.
Proof.
  revert st elementIdx. induction els as [|element rest IH]; intros st elementIdx; simpl.
  { intros [= <-]. lia. }
  unfold drawElement at 1.
  destruct (drawLabelItem _ _ _ _ _) as [[group ls]|] eqn:Hd; simpl; [|done].
  intros Hrest. apply IH in Hrest. rewrite Hrest, collectLabels_length. simpl.
  unfold drawLabelItem in Hd. apply drawItems_shapes in Hd as (_ & -> & _). lia.
Qed.

Lemma drawElements_kept st els elementIdx st' :
  drawElements st els elementIdx = Some st' →
  ∃ kept, d_labels st' = d_labels st ++ kept ∧
          kept `sublist_of` seq (length (d_group st)) (countItems els elementIdx) ∧
          (keeps_labels →
           kept = seq (length (d_group st)) (countItems els elementIdx)).
Proof.
  revert st elementIdx. induction els as [|element rest IH]; intros st elementIdx; simpl.
  { intros [= <-]. exists []. by rewrite app_nil_r. }
  unfold drawElement at 1.
  destruct (drawLabelItem _ _ _ _ _) as [[group ls]|] eqn:Hd; simpl; [|done].
  intros Hrest. apply IH in Hrest as (kept2 & -> & Hsub2 & Hall2).
  unfold drawLabelItem in Hd. apply drawItems_shapes in Hd as (-> & Hlen & _ & Hnew).
  rewrite collectLabels_length in Hsub2, Hall2. simpl in Hsub2, Hall2.
  destruct (collectLabels_kept element
              (mkDState group (d_labels st) (d_cfgMap st)) (length (d_group st))
              (length (getLabelItemAttrs element elementIdx)) 0)
    as (kept1 & Hl1 & Hsub1).
  rewrite Hl1. simpl. exists (kept1 ++ kept2). rewrite <- app_assoc.
  split; [done|]. rewrite seq_app, <- Hlen. split; [by apply sublist_app|].
  intros Hk. rewrite (Hall2 Hk). f_equal.
  rewrite collectLabels_all in Hl1; [by apply app_inv_head in Hl1|done|].
  simpl. intros h Hh.
  destruct (lookup_lt_is_Some_2 (getLabelItemAttrs element elementIdx)
              (h - length (d_group st))) as [a Ha]; [lia|].
  destruct (Hnew _ _ Ha) as (d & _ & Hg).
  replace (length (d_group st) + (h - length (d_group st)))%nat with h in Hg by lia.
  eauto.
Qed.

Lemma collectLabel_in_snapshot g0 element st label idx pending :
  DInv g0 (label :: pending) st → labels_in_snapshot st →
  labels_in_snapshot (collectLabel element st label idx).
Proof.
  intros Hinv Hp h Hh. unfold collectLabel in *.
  destruct (d_group st !! label) as [drawn|] eqn:Hdrawn; [|by apply Hp].
  assert (∀ h, h ∈ d_labels st → h ≠ label) as Hne.
  { intros h' Hh' ->. destruct (inv_labels _ _ _ Hinv _ Hh') as [Hn _]. set_solver. }
  destruct (destroyed (adjustLabel drawn element idx)) eqn:Hd; simpl in *.
  - destruct (Hp _ Hh) as (s & Hs & Hin). exists s.
    by rewrite list_lookup_insert_ne by (by apply not_eq_sym, Hne).
  - apply elem_of_app in Hh as [Hh|Hh].
    + destruct (Hp _ Hh) as (s & Hs & Hin). exists s.
      rewrite list_lookup_insert_ne by (by apply not_eq_sym, Hne).
      split; [done|]. destruct Hin as [Hin|Hin]; [left|by right].
      by apply lookup_dict_set_is_Some.
    + apply list_elem_of_singleton in Hh as ->.
      exists (adjustLabel drawn element idx).
      rewrite list_lookup_insert_eq by (by eapply lookup_lt_Some).
      split; [done|].
      destruct (decide (shape_id (adjustLabel drawn element idx) = "__proto__"));
        [by right|left].
      rewrite lookup_dict_set_eq by done. eauto.
Qed.

Lemma collectLabels_in_snapshot g0 element st ls idx :
  NoDup ls → DInv g0 ls st → labels_in_snapshot st →
  labels_in_snapshot (collectLabels element st ls idx).
Proof.
  revert st idx. induction ls as [|label ls IH]; intros st idx Hnd Hinv Hp; [done|].
  simpl. apply IH.
  - by apply NoDup_cons in Hnd as [_ ?].
  - by apply collectLabel_inv.
  - by eapply collectLabel_in_snapshot.
Qed.

Lemma drawElements_in_snapshot g0 st els elementIdx st' :
  DInv g0 [] st → labels_in_snapshot st →
  drawElements st els elementIdx = Some st' → labels_in_snapshot st'.
Proof.
  revert st elementIdx. induction els as [|element rest IH];
    intros st elementIdx Hinv Hp; simpl.
  { by intros [= <-]. }
  destruct (drawElement st element elementIdx) as [st1|] eqn:H1; simpl; [|done].
  apply IH; [by eapply drawElement_inv|].
  unfold drawElement, drawLabelItem in H1.
  destruct (drawItems _ _ _ _ _) as [[group ls]|] eqn:Hd; simpl in H1; [|done].
  injection H1 as <-. apply drawItems_spec in Hd as (news & -> & -> & Hnews).
  eapply collectLabels_in_snapshot; [apply NoDup_seq|by apply DInv_drawn|].
  intros h Hh. destruct (Hp _ Hh) as (s & Hs & Hin). exists s. simpl.
  split; [by apply lookup_app_l_Some|done].
Qed.

Lemma drawLabels_in_snapshot g0 st :
  drawLabels g0 = Some st → labels_in_snapshot st.
Proof.
  intros Hd. eapply (drawElements_in_snapshot g0); [apply DInv_init| |exact Hd].
  intros h Hh. by apply elem_of_nil in Hh.
Qed.

End Labels.

(** ** What the animation part issues, and for whom *)

Section Calls.
Context (geometry : Geometry) (coord : Coordinate).
Context (getDefaultAnimateCfg : string → Coordinate → AnimateCfg).

Local Abbreviation cfg := (animateCfg geometry coord getDefaultAnimateCfg).
Local Abbreviation onCurrent := (onCurrent geometry coord getDefaultAnimateCfg).
Local Abbreviation onOutstanding := (onOutstanding geometry coord getDefaultAnimateCfg).
Local Abbreviation reconcile := (reconcile geometry coord getDefaultAnimateCfg).
Local Abbreviation current_calls := (current_calls geometry coord getDefaultAnimateCfg).
Local Abbreviation outstanding_calls :=
  (outstanding_calls geometry coord getDefaultAnimateCfg).
Local Abbreviation loop1 := (loop1 geometry coord getDefaultAnimateCfg).
Local Abbreviation loop2 := (loop2 geometry coord getDefaultAnimateCfg).

Lemma elem_of_calls_of c log : c ∈ log → c ∈ calls_of (call_id c) log.
Proof. intros Hc. unfold calls_of. by apply list_elem_of_filter. Qed.

(** A truthy read on an object with the default prototype found an own
    entry, unless the name is that of a member of [Object.prototype]. *)
Lemma truthy_readSnapshot_plain (m : Dict TextStyle) id :
  truthy (readSnapshot m id) = true → proto m = None →
  id ∉ objectPrototypeMembers → is_Some (m !! id).
Proof.
  intros Ht Hp Hn. destruct (m !! id) as [o|] eqn:Ho; [eauto|].
  by rewrite (readSnapshot_plain _ _ Ho Hp Hn) in Ht.
Qed.

(** A falsy read found no own entry. *)
Lemma falsy_readSnapshot (m : Dict TextStyle) id :
  truthy (readSnapshot m id) = false → m !! id = None.
Proof.
  intros Ht. destruct (m !! id) as [o|] eqn:Ho; [|done].
  by rewrite (readSnapshot_own _ _ _ Ho) in Ht.
Qed.

Lemma elem_of_attrCall c h id x :
  c ∈ attrCall h id x →
  match x with
  | GotAttrs o => c = ShapeAttr h id o
  | GotInherited i => c = ShapeAttrInherited h id i
  | GotUndefined => False
  end.
Proof.
  destruct x; simpl; intros Hc.
  - by apply list_elem_of_singleton in Hc.
  - by apply list_elem_of_singleton in Hc.
  - by apply elem_of_nil in Hc.
Qed.

(** Every call of the log, with what justifies it. *)
Lemma reconcile_call_sound group last cur c :
  c ∈ r_calls (reconcile group last cur) →
  match c with
  | Visit OverCurrent id => is_Some (cur !! id)
  | Visit OverOutstanding id => cur !! id = None ∧ is_Some (last !! id)
  | ShapeAttr h id o =>
      is_Some (cur !! id) ∧ readSnapshot last id = GotAttrs o ∧
      findById group id = Some h
  | ShapeAttrInherited h id x =>
      is_Some (cur !! id) ∧ readSnapshot last id = GotInherited x ∧
      truthy (GotInherited x) = true ∧ findById group id = Some h
  | AddShape h s =>
      cur !! shape_id s = None ∧ last !! shape_id s = Some (attrs s) ∧
      s = transient (shape_id s) (attrs s)
  | DoAnimate ph h id cf to co =>
      get cfg ph = Some cf ∧ co = coord ∧
      match ph with
      | Appear => is_Some (cur !! id) ∧ truthy (readSnapshot last id) = false ∧
                  findById group id = Some h ∧ to = Some (getAttrs group h)
      | Update => is_Some (to) ∧ to = cur !! id ∧
                  truthy (readSnapshot last id) = true ∧
                  findById group id = Some h
      | Leave => cur !! id = None ∧ is_Some (last !! id) ∧ to = None
      end
  end.
Proof.
  intros Hc. apply elem_of_calls_of in Hc.
  remember (call_id c) as id eqn:Hid.
  destruct (cur !! id) as [a|] eqn:Hcur.
  - rewrite (reconcile_calls_current geometry coord getDefaultAnimateCfg
               group last cur id a Hcur) in Hc.
    unfold current_calls in Hc.
    destruct (findById group id) as [h|] eqn:Hf.
    2:{ apply list_elem_of_singleton in Hc as ->. simpl. eauto. }
    destruct (truthy (readSnapshot last id)) eqn:Ht.
    + destruct (get cfg Update) as [cu|] eqn:Hu.
      * apply elem_of_cons in Hc as [->|Hc]; [simpl; eauto|].
        apply elem_of_app in Hc as [Hc|Hc].
        -- apply elem_of_attrCall in Hc.
           destruct (readSnapshot last id) as [o|i|] eqn:Hr; [| |done];
             subst c; simpl; rewrite ?Hcur; eauto 10.
        -- apply list_elem_of_singleton in Hc as ->. simpl.
           rewrite Hcur. eauto 10.
      * apply list_elem_of_singleton in Hc as ->. simpl. eauto.
    + destruct (get cfg Appear) as [ca|] eqn:Ha;
        repeat (apply elem_of_cons in Hc as [->|Hc]);
        try (by apply elem_of_nil in Hc);
        simpl in *; rewrite ?Hcur; eauto 10.
  - destruct (last !! id) as [o|] eqn:Hl.
    + destruct (reconcile_calls_outstanding geometry coord getDefaultAnimateCfg
                  group last cur id o Hcur Hl)
        as (h & _ & E & _).
      rewrite E in Hc. unfold outstanding_calls in Hc.
      destruct (get cfg Leave) as [cl|] eqn:Hv;
        repeat (apply elem_of_cons in Hc as [->|Hc]);
        try (by apply elem_of_nil in Hc);
        simpl in *; rewrite ?Hcur, ?Hl; eauto 10.
    + rewrite (reconcile_calls_neither geometry coord getDefaultAnimateCfg
                 group last cur id Hcur Hl) in Hc.
      by apply elem_of_nil in Hc.
Qed.

(** The class of the identity of a call, by its phase. *)
Lemma reconcile_phases group last cur c :
  c ∈ r_calls (reconcile group last cur) →
  (is_animate Appear c = true →
     is_Some (cur !! call_id c) ∧ last !! call_id c = None ∧
     truthy (readSnapshot last (call_id c)) = false) ∧
  (is_animate Update c = true ∨ is_shape_attr c = true →
     is_Some (cur !! call_id c) ∧
     truthy (readSnapshot last (call_id c)) = true) ∧
  (is_animate Leave c = true ∨ is_add_shape c = true →
     cur !! call_id c = None ∧ is_Some (last !! call_id c)).
Proof.
  intros Hc. apply reconcile_call_sound in Hc.
  destruct c as [l id|h id o|h id x|h s|ph h id cf to co]; simpl in *.
  - naive_solver.
  - destruct Hc as (? & Hr & ?). rewrite Hr. naive_solver.
  - destruct Hc as (? & Hr & ? & ?). rewrite Hr. naive_solver.
  - destruct Hc as (? & -> & ?). naive_solver.
  - destruct ph; simpl; destruct Hc as (_ & _ & Hc).
    + destruct Hc as (? & Hf & _). pose proof (falsy_readSnapshot _ _ Hf).
      naive_solver.
    + naive_solver.
    + naive_solver.
Qed.

(** X5.  The animation part issues a call of a phase only for an identity of
    the matching class: an appear animation only for an identity of the
    current snapshot that the previous one lacks, and for which the read
    of the previous one is falsy; [attr] and the update animation only for
    an identity of the current snapshot for which that read is truthy,
    which is an identity of both snapshots unless it names something the
    previous snapshot inherits; a transient shape and the leave animation
    only for an identity of the previous snapshot that the current one
    lacks. *)
Theorem reconcile_phase_sound group last cur c :
  c ∈ r_calls (reconcile group last cur) →
  (is_animate Appear c = true →
     is_Some (cur !! call_id c) ∧ last !! call_id c = None ∧
     truthy (readSnapshot last (call_id c)) = false) ∧
  (is_animate Update c = true ∨ is_shape_attr c = true →
     is_Some (cur !! call_id c) ∧
     truthy (readSnapshot last (call_id c)) = true ∧
     (proto last = None → call_id c ∉ objectPrototypeMembers →
      is_Some (last !! call_id c))) ∧
  (is_animate Leave c = true ∨ is_add_shape c = true →
     cur !! call_id c = None ∧ is_Some (last !! call_id c)).
Proof.
  intros Hc. destruct (reconcile_phases _ _ _ _ Hc) as (Ha & Hu & Hl).
  split; [exact Ha|]. split; [|exact Hl].
  intros H. destruct (Hu H) as [Hcur Ht].
  split; [exact Hcur|]. split; [exact Ht|].
  intros Hp Hn. by apply truthy_readSnapshot_plain.
Qed.

(** X6.  Every animation in the log was given the spec configured under
    the key of its phase and the coordinate of the component; its target
    is [null] exactly for a leave, the current snapshot's attributes for
    an update, and the shape's own attributes for an appear; and the shape
    it animates is, when the pass ends, a live shape of the group carrying
    the identity. *)
Theorem reconcile_animation_args group last cur ph h id cf to co :
  DoAnimate ph h id cf to co ∈ r_calls (reconcile group last cur) →
  get cfg ph = Some cf ∧ co = coord ∧
  (to = None ↔ ph = Leave) ∧
  (ph = Update → to = cur !! id) ∧
  (ph = Appear → to = Some (getAttrs group h)) ∧
  ∃ s, r_group (reconcile group last cur) !! h = Some s ∧
       shape_id s = id ∧ destroyed s = false.
Proof.
  intros Hc.
  pose proof (reconcile_calls_ok geometry coord getDefaultAnimateCfg group last cur)
    as Hok.
  rewrite Forall_forall in Hok. destruct (Hok _ Hc) as [_ Hlive].
  apply reconcile_call_sound in Hc as (Hcf & -> & Hph).
  split; [done|]. split; [done|].
  destruct ph; simpl in Hph.
  - destruct Hph as (_ & _ & _ & ->). naive_solver.
  - destruct Hph as ([a Ha] & <- & _). rewrite Ha. naive_solver.
  - destruct Hph as (_ & _ & ->). naive_solver.
Qed.

Lemma loop2_group_eq l st :
  r_group (loop2 l st) =
  r_group st ++ match get cfg Leave with
                | Some _ => (λ kv, transient kv.1 kv.2) <$> l
                | None => []
                end.
Proof.
  revert st. induction l as [|[k v] l IH]; intros st.
  { simpl. case_match; by rewrite app_nil_r. }
  rewrite loop2_cons, IH, onOutstanding_group, <- app_assoc.
  by destruct (get cfg Leave).
Qed.

Lemma loop1_proto l st : proto (r_last (loop1 l st)) = proto (r_last st).
Proof.
  revert st. induction l as [|[k v] l IH]; intros st; [done|].
  by rewrite loop1_cons, IH, onCurrent_last.
Qed.

Lemma loop1_last_difference group last cur :
  r_last (loop1 (map_to_list (own cur)) (mkRState group last [])) = last ∖ cur.
Proof.
  apply dict_eq.
  - apply map_eq. intros id. rewrite own_dict_difference, lookup_difference.
    rewrite <- !dict_lookup_own. destruct (cur !! id) eqn:Hc.
    + apply loop1_last_current. eauto.
    + by apply loop1_last_outstanding.
  - apply loop1_proto.
Qed.

Lemma reconcile_last_difference group last cur :
  r_last (reconcile group last cur) = last ∖ cur.
Proof. rewrite reconcile_loops, loop2_last. apply loop1_last_difference. Qed.

(** The group after the animation part: the shapes it had, then the
    transient ones. *)
Lemma reconcile_group_split group last cur :
  ∃ kept added,
    r_group (reconcile group last cur) = kept ++ added ∧
    length kept = length group ∧
    added ≡ₚ match get cfg Leave with
             | Some _ => (λ kv, transient kv.1 kv.2) <$> map_to_list (last ∖ cur)
             | None => []
             end ∧
    length added = match get cfg Leave with
                   | Some _ => size (last ∖ cur)
                   | None => 0%nat
                   end.
Proof.
  rewrite reconcile_loops, loop2_group_eq, loop1_last_difference.
  eexists _, _. split; [done|]. split; [apply loop1_length|].
  split; [done|]. destruct (get cfg Leave); [|done].
  rewrite length_fmap. apply (length_map_to_list (M:=gmap string)).
Qed.

(** X7.  The animation part removes no shape and adds exactly one transient
    shape per identity that the previous snapshot has and the current one
    lacks, carrying that identity and its previous attributes, and none
    when no leave spec is configured; what it leaves of the previous
    snapshot is those same entries. *)
Theorem reconcile_transients group last cur :
  r_last (reconcile group last cur) = last ∖ cur ∧
  ∃ kept added,
    r_group (reconcile group last cur) = kept ++ added ∧
    length kept = length group ∧
    added ≡ₚ match get cfg Leave with
             | Some _ => (λ kv, transient kv.1 kv.2) <$> map_to_list (last ∖ cur)
             | None => []
             end ∧
    length added = match get cfg Leave with
                   | Some _ => size (last ∖ cur)
                   | None => 0%nat
                   end.
Proof.
  split; [apply reconcile_last_difference|apply reconcile_group_split].
Qed.

(** A read on an object that owns nothing and has the default prototype
    finds no attributes. *)
Lemma readSnapshot_nothing (m : Dict TextStyle) id :
  own m = ∅ → proto m = None → readSnapshot m id = readObjectPrototype id.
Proof. intros Ho Hp. unfold readSnapshot. by rewrite Ho, Hp, lookup_empty. Qed.

Lemma attrGot_readObjectPrototype id s : attrGot (readObjectPrototype id) s = s.
Proof. unfold readObjectPrototype. by case_match. Qed.

(** With nothing in the previous snapshot the first loop changes no shape. *)
Lemma loop1_group_empty_last l st :
  own (r_last st) = ∅ → proto (r_last st) = None →
  r_group (loop1 l st) = r_group st.
Proof.
  revert st. induction l as [|[k v] l IH]; intros st Ho Hp; [done|].
  rewrite loop1_cons, IH.
  - unfold onCurrent. rewrite (readSnapshot_nothing _ _ Ho Hp).
    repeat case_match; simplify_eq; simpl; try done.
    apply list_eq. intros i. rewrite list_lookup_alter.
    case_decide; [subst|done].
    destruct (r_group st !! _); simpl; [|done].
    by rewrite attrGot_readObjectPrototype.
  - rewrite onCurrent_last, own_dict_delete, Ho. apply delete_empty.
  - by rewrite onCurrent_last.
Qed.

Lemma reconcile_group_first group cur :
  r_group (reconcile group ∅ cur) = group.
Proof.
  rewrite reconcile_loops, loop2_group_eq, loop1_group_empty_last by done.
  rewrite loop1_last_difference.
  assert (own ((∅ : Dict TextStyle) ∖ cur) = ∅) as ->.
  { rewrite own_dict_difference.
    change (own (∅ : Dict TextStyle)) with (∅ : gmap string TextStyle).
    apply map_eq. intros id. rewrite lookup_difference, lookup_empty.
    by destruct (own cur !! id). }
  rewrite map_to_list_empty. simpl. case_match; by rewrite app_nil_r.
Qed.

End Calls.

(** ** Whole passes *)

Section Pass.
Context (geometry : Geometry) (coord : Coordinate).
Context (getDefaultAnimateCfg : string → Coordinate → AnimateCfg).
Context (getLabelItemAttrs : Element → nat → list TextStyle).
Context (adjustLabel : Shape → Element → nat → Shape).

Local Abbreviation cfg := (animateCfg geometry coord getDefaultAnimateCfg).
Local Abbreviation reconcile := (reconcile geometry coord getDefaultAnimateCfg).
Local Abbreviation renderInner :=
  (renderInner geometry coord getDefaultAnimateCfg getLabelItemAttrs adjustLabel).
Local Abbreviation drawLabels := (drawLabels geometry getLabelItemAttrs adjustLabel).
Local Abbreviation drawn_count :=
  (countItems getLabelItemAttrs (elements geometry) 0).

Lemma renderInner_Some_drawn this group this' group' log :
  renderInner this group = Some (this', group', log) →
  ∃ drawn,
    drawLabels group = Some drawn ∧
    this' = mkLabelComponent (d_labels drawn) (d_cfgMap drawn) (d_cfgMap drawn) ∧
    group' = r_group (reconcile (d_group drawn) (lastLabelsCfgMap this) (d_cfgMap drawn)) ∧
    log = r_calls (reconcile (d_group drawn) (lastLabelsCfgMap this) (d_cfgMap drawn)).
Proof.
  unfold renderInner.
  destruct drawLabels as [drawn|]; simpl; [|done].
  intros [= <- <- <-]. by exists drawn.
Qed.

(** X3.  The labels of a pass are new slots of the group, listed once each
    in drawing order: a sublist of the slots drawn, which are as many as
    the attribute sets the elements yield.  When the adjustment destroys
    no label, the list is all of them, so N elements with one attribute
    set each give N labels. *)
Theorem renderInner_labels this group this' group' log :
  renderInner this group = Some (this', group', log) →
  labels this' `sublist_of` seq (length group) drawn_count ∧
  NoDup (labels this') ∧
  (length (labels this') ≤ drawn_count)%nat ∧
  (keeps_labels adjustLabel →
   labels this' = seq (length group) drawn_count ∧
   length (labels this') = drawn_count).
Proof.
  intros Hr. apply renderInner_Some_drawn in Hr as (drawn & Hd & -> & _). simpl.
  apply drawElements_kept in Hd as (kept & -> & Hsub & Hall). simpl in *.
  split; [exact Hsub|]. split; [|split].
  - eapply sublist_NoDup; [apply NoDup_seq|exact Hsub].
  - apply sublist_length in Hsub. by rewrite length_seq in Hsub.
  - intros Hk. rewrite (Hall Hk). by rewrite length_seq.
Qed.

(** X4.  The keys of the snapshot taken by a pass are exactly the
    identities carried by the labels of its list, [__proto__] apart: a
    label of that identity adds no key. *)
Theorem renderInner_snapshot_keys this group this' group' log id :
  renderInner this group = Some (this', group', log) →
  is_Some (labelsCfgMap this' !! id) ↔
  id ≠ "__proto__" ∧
  ∃ h s, h ∈ labels this' ∧ group' !! h = Some s ∧ shape_id s = id.
Proof.
  intros Hr. apply renderInner_Some_drawn in Hr as (drawn & Hd & -> & -> & _). simpl.
  split.
  - intros [a Ha]. split.
    { intros ->. by rewrite lookup_dict_proto in Ha. }
    destruct (inv_cfgMap _ _ _ (drawLabels_inv _ _ _ _ _ Hd) _ _ Ha)
      as (h & s & Hh & Hs & Hi & _).
    destruct (reconcile_slot geometry coord getDefaultAnimateCfg _
                (lastLabelsCfgMap this) (d_cfgMap drawn) _ _ Hs) as (s' & Hs' & Hi' & _).
    exists h, s'. split; [done|]. split; [done|]. congruence.
  - intros (Hid & h & s & Hh & Hs & <-).
    destruct (drawLabels_in_snapshot _ _ _ _ _ Hd _ Hh) as (s0 & Hs0 & Hin).
    destruct (reconcile_slot geometry coord getDefaultAnimateCfg _
                (lastLabelsCfgMap this) (d_cfgMap drawn) _ _ Hs0) as (s' & Hs' & Hi' & _).
    rewrite Hs in Hs'. injection Hs' as ->. rewrite Hi'.
    destruct Hin as [Hin|Hin]; [done|]. congruence.
Qed.

(** X8.  A pass removes nothing from the group it is given: every shape
    that was in it is still at its place, with its identity and destroyed
    flag; the group has grown by the shapes drawn and by one transient
    shape per leaving identity when a leave spec is configured. *)
Theorem renderInner_keeps_shapes this group this' group' log :
  renderInner this group = Some (this', group', log) →
  (∀ h s, group !! h = Some s →
     ∃ s', group' !! h = Some s' ∧ shape_id s' = shape_id s ∧
           destroyed s' = destroyed s) ∧
  length group' =
    (length group + drawn_count +
     match get cfg Leave with
     | Some _ => size (lastLabelsCfgMap this ∖ labelsCfgMap this')
     | None => 0
     end)%nat.
Proof.
  intros Hr. apply renderInner_Some_drawn in Hr as (drawn & Hd & -> & -> & _). simpl.
  split.
  - intros h s Hs. apply reconcile_slot.
    rewrite (inv_old _ _ _ (drawLabels_inv _ _ _ _ _ Hd)); [done|].
    by eapply lookup_lt_Some.
  - destruct (reconcile_group_split geometry coord getDefaultAnimateCfg (d_group drawn)
                (lastLabelsCfgMap this) (d_cfgMap drawn))
      as (kept & added & -> & Hk & _ & Ha).
    rewrite length_app, Hk, Ha. apply drawElements_length in Hd. simpl in Hd.
    by rewrite Hd.
Qed.

(** X9.  Rendering again with nothing changed (same elements, same group
    to draw into) gives the same labels and the same snapshot, and only
    updates: no appear animation, no leave animation, no transient shape;
    with an update spec, every identity of the snapshot gets [attr] and one
    update animation that both carry its unchanged attributes. *)
Theorem renderInner_again this group this1 group1 log1 this2 group2 log2 :
  renderInner this group = Some (this1, group1, log1) →
  renderInner this1 group = Some (this2, group2, log2) →
  labels this2 = labels this1 ∧
  labelsCfgMap this2 = labelsCfgMap this1 ∧
  length group2 = (length group + drawn_count)%nat ∧
  (∀ c, c ∈ log2 →
     is_animate Appear c = false ∧ is_animate Leave c = false ∧
     is_add_shape c = false) ∧
  (∀ id a cu, labelsCfgMap this1 !! id = Some a → get cfg Update = Some cu →
     ∃ h, calls_of id log2 =
          [Visit OverCurrent id; ShapeAttr h id a;
           DoAnimate Update h id cu (Some a) coord]).
Proof.
  intros H1 H2.
  apply renderInner_Some_drawn in H1 as (drawn & Hd & -> & _ & _).
  apply renderInner_Some_drawn in H2 as (drawn' & Hd' & -> & -> & ->).
  rewrite Hd in Hd'. injection Hd' as <-. simpl.
  split; [done|]. split; [done|]. split; [|split].
  - destruct (reconcile_group_split geometry coord getDefaultAnimateCfg (d_group drawn)
                (d_cfgMap drawn) (d_cfgMap drawn))
      as (kept & added & -> & Hk & _ & Ha).
    rewrite length_app, Hk, Ha. apply drawElements_length in Hd. simpl in Hd.
    rewrite Hd. rewrite size_own, own_dict_difference, map_difference_diag, map_size_empty.
    by destruct (get cfg Leave); lia.
  - intros c Hc.
    destruct (reconcile_phases geometry coord getDefaultAnimateCfg _ _ _ _ Hc)
      as (Ha & _ & Hl).
    destruct (is_animate Appear c) eqn:Ea.
    { destruct Ha as ([a Ha1] & Ha2 & _); [done|]. congruence. }
    destruct (is_animate Leave c) eqn:El.
    { destruct Hl as [Hl1 [a Hl2]]; [by left|]. congruence. }
    destruct (is_add_shape c) eqn:Es; [|done].
    destruct Hl as [Hl1 [a Hl2]]; [by right|]. congruence.
  - intros id a cu Ha Hu.
    destruct (drawLabels_findById _ _ _ _ _ id Hd) as [h Hf]; [eauto|].
    exists h.
    rewrite (reconcile_calls_current geometry coord getDefaultAnimateCfg
               (d_group drawn) (d_cfgMap drawn) (d_cfgMap drawn) id a Ha).
    unfold current_calls. by rewrite Hf, (readSnapshot_own _ _ _ Ha), Hu.
Qed.

(** X10.  On a first pass, when the previous snapshot is the empty
    object, the animation part changes nothing in the group, which stays
    exactly as drawn, and issues no leave animation and no transient
    shape; it never gives [attr] an attribute object; and it issues no
    update animation and no [attr] at all (so nothing but appear
    animations) for an identity that is not the name of a member of
    [Object.prototype]. *)
Theorem renderInner_first this group this' group' log :
  lastLabelsCfgMap this = ∅ →
  renderInner this group = Some (this', group', log) →
  drawLabels group = Some (mkDState group' (labels this') (labelsCfgMap this')) ∧
  (∀ c, c ∈ log →
     is_animate Leave c = false ∧ is_add_shape c = false ∧
     (∀ h id o, c ≠ ShapeAttr h id o) ∧
     (call_id c ∉ objectPrototypeMembers →
      is_animate Update c = false ∧ is_shape_attr c = false)).
Proof.
  intros Hl Hr. apply renderInner_Some_drawn in Hr as (drawn & Hd & -> & -> & ->).
  rewrite Hl. simpl. split.
  - rewrite reconcile_group_first. by destruct drawn.
  - intros c Hc.
    pose proof (reconcile_call_sound geometry coord getDefaultAnimateCfg _ _ _ _ Hc)
      as Hs.
    destruct (reconcile_phases geometry coord getDefaultAnimateCfg _ _ _ _ Hc)
      as (_ & Hu & Hv).
    rewrite lookup_dict_empty in Hv.
    split; [|split; [|split]].
    + destruct (is_animate Leave c); [by destruct Hv as [_ []]; [left|]|done].
    + destruct (is_add_shape c); [by destruct Hv as [_ []]; [right|]|done].
    + intros h id o ->. destruct Hs as (_ & Hr & _).
      rewrite readSnapshot_nothing in Hr by done.
      unfold readObjectPrototype in Hr. by case_match.
    + intros Hn.
      assert (¬ (is_animate Update c = true ∨ is_shape_attr c = true)) as Hno.
      { intros H. destruct (Hu H) as [_ Ht].
        rewrite readSnapshot_nothing in Ht by done.
        unfold readObjectPrototype in Ht.
        by rewrite bool_decide_eq_false_2 in Ht. }
      destruct (is_animate Update c); [destruct Hno; by left|].
      destruct (is_shape_attr c); [destruct Hno; by right|]. done.
Qed.

(** X11.  With no element to draw, a pass never throws: it ends with no
    label and an empty snapshot, leaves the shapes of the group as they
    were, and lets every identity of the previous snapshot leave, adding
    one transient shape for each when a leave spec is configured. *)
Theorem renderInner_no_elements this group :
  elements geometry = [] →
  ∃ added log,
    renderInner this group = Some (mkLabelComponent [] ∅ ∅, group ++ added, log) ∧
    added ≡ₚ match get cfg Leave with
             | Some _ => (λ kv, transient kv.1 kv.2) <$> map_to_list (lastLabelsCfgMap this)
             | None => []
             end ∧
    (∀ c, c ∈ log →
       is_animate Appear c = false ∧ is_animate Update c = false ∧
       is_shape_attr c = false).
Proof.
  intros He.
  assert (r_group (reconcile group (lastLabelsCfgMap this) ∅) =
          group ++ match get cfg Leave with
                   | Some _ => (λ kv, transient kv.1 kv.2)
                                 <$> map_to_list (lastLabelsCfgMap this)
                   | None => []
                   end) as Hg.
  { rewrite reconcile_loops, loop2_group_eq.
    change (map_to_list (own (∅ : Dict TextStyle)))
      with (map_to_list (∅ : gmap string TextStyle)).
    by rewrite map_to_list_empty. }
  eexists _, (r_calls (reconcile group (lastLabelsCfgMap this) ∅)).
  split; [|split].
  - unfold renderInner, drawLabels. rewrite He. simpl. by rewrite Hg.
  - done.
  - intros c Hc.
    destruct (reconcile_phases geometry coord getDefaultAnimateCfg _ _ _ _ Hc)
      as (Ha & Hu & _).
    rewrite lookup_dict_empty in Ha, Hu.
    destruct (is_animate Appear c); [by destruct Ha as [[] _]|].
    destruct (is_animate Update c); [by destruct Hu as [[] _]; [left|]|].
    destruct (is_shape_attr c); [by destruct Hu as [[] _]; [right|]|].
    done.
Qed.

(** X12.  With animation switched off on the geometry, the pass leaves the
    group exactly as drawn and calls neither the scene graph nor the
    animation driver after drawing, whatever the previous snapshot holds. *)
Theorem renderInner_animation_off this group this' group' log :
  animateOption geometry = false →
  renderInner this group = Some (this', group', log) →
  drawLabels group = Some (mkDState group' (labels this') (labelsCfgMap this')) ∧
  (∀ c, c ∈ log → call_shape c = None).
Proof.
  intros Hoff Hr. apply renderInner_Some_drawn in Hr as (drawn & Hd & -> & -> & ->).
  assert (∀ ph, get cfg ph = None) as Hnone.
  { intros ph. unfold animateCfg. by rewrite Hoff. }
  simpl. split.
  - destruct (reconcile_group geometry coord getDefaultAnimateCfg (d_group drawn)
                (lastLabelsCfgMap this) (d_cfgMap drawn)) as (added & _ & Hg & Ha & _).
    rewrite (Hg (Hnone Update)), (Ha (Hnone Leave)), app_nil_r. by destruct drawn.
  - intros c Hc.
    pose proof (reconcile_calls_ok geometry coord getDefaultAnimateCfg (d_group drawn)
                  (lastLabelsCfgMap this) (d_cfgMap drawn)) as Hok.
    rewrite Forall_forall in Hok. specialize (Hok c Hc).
    destruct c as [| | | |ph ? ? ? ? ?]; simpl in *; try done;
      rewrite Hnone in Hok; by destruct Hok as [[] _].
Qed.

End Pass.

(** ** Registry and identities *)

Lemma lastRegistered_cons {Ctor : Type} (t k : string) (v : Ctor) regs :
  lastRegistered t ((k, v) :: regs) =
  match lastRegistered t regs with
  | Some c => Some c
  | None => if decide (k = t) then Some v else None
  end.
Proof.
  unfold lastRegistered. rewrite filter_cons. simpl.
  destruct (decide (k = t)); [|by destruct (last _)].
  rewrite last_cons. by destruct (last _).
Qed.

Lemma own_registerAll {Ctor : Type} (t : string) (regs : list (string * Ctor))
    (m : Dict Ctor) :
  t ≠ "__proto__" →
  own (Registry.registerAll regs m) !! t =
  match lastRegistered t regs with
  | Some c => Some c
  | None => own m !! t
  end.
Proof.
  intros Ht. revert m. induction regs as [|[k v] regs IH]; intros m; [done|].
  change (Registry.registerAll ((k, v) :: regs) m)
    with (Registry.registerAll regs (Registry.registerLabelComponent k v m)).
  rewrite IH, lastRegistered_cons.
  destruct (lastRegistered t regs); [done|].
  unfold Registry.registerLabelComponent. rewrite own_dict_set.
  destruct (decide (k = t)) as [->|Hne].
  - rewrite decide_False by done. apply lookup_insert_eq.
  - case_decide; [done|]. by apply lookup_insert_ne.
Qed.

Lemma proto_registerAll {Ctor : Type} (regs : list (string * Ctor)) (m : Dict Ctor) :
  proto (Registry.registerAll regs m) =
  match lastRegistered "__proto__" regs with
  | Some c => Some c
  | None => proto m
  end.
Proof.
  revert m. induction regs as [|[k v] regs IH]; intros m; [done|].
  change (Registry.registerAll ((k, v) :: regs) m)
    with (Registry.registerAll regs (Registry.registerLabelComponent k v m)).
  rewrite IH, lastRegistered_cons.
  destruct (lastRegistered "__proto__" regs); [done|].
  unfold Registry.registerLabelComponent. rewrite proto_dict_set.
  by case_decide.
Qed.

(** X13.  After any sequence of registrations, the constructor found for a
    type is the one of the last registration naming that type, whatever
    was registered for other types before, between or after.  A type the
    sequence does not name is found as it was before when no registration
    names [__proto__]; when one does, such a type is found as before if
    the map owns it, and is otherwise read on the constructor last
    registered under [__proto__]. *)
Theorem registerAll_lookup {Ctor : Type} (t : string) (regs : list (string * Ctor))
    (m : Dict Ctor) :
  Registry.getLabelComponent t (Registry.registerAll regs m) =
  match lastRegistered t regs with
  | Some c => Registry.Component c
  | None =>
      match lastRegistered "__proto__" regs with
      | None => Registry.getLabelComponent t m
      | Some p =>
          match m !! t with
          | Some c => Registry.Component c
          | None => Registry.MemberOf p t
          end
      end
  end.
Proof.
  unfold Registry.getLabelComponent. rewrite proto_registerAll, dict_lookup_own.
  destruct (decide (t = "__proto__")) as [->|Ht].
  - rewrite !own_plain. by destruct (lastRegistered "__proto__" regs).
  - rewrite own_registerAll by done.
    destruct (lastRegistered t regs); [done|].
    destruct (own m !! t); [by destruct (lastRegistered "__proto__" regs)|].
    destruct (lastRegistered "__proto__" regs); simpl; [|done].
    by destruct (decide (t = "__proto__")).
Qed.

Lemma append_dash_inj a a' b b' :
  has_dash a = false → has_dash a' = false →
  a +:+ "-" +:+ b = a' +:+ "-" +:+ b' → a = a' ∧ b = b'.
Proof.
  revert a'. induction a as [|c a IH]; intros [|c' a']; simpl.
  - intros _ _ [= H]. split; [done|exact H].
  - intros _ Hd [= Hc _]. subst c'. by rewrite Ascii.eqb_refl in Hd.
  - intros Hd _ [= Hc _]. subst c. by rewrite Ascii.eqb_refl in Hd.
  - intros Hd Hd' [= -> Heq].
    apply orb_false_iff in Hd as [_ Hd], Hd' as [_ Hd'].
    destruct (IH a' Hd Hd' Heq) as [-> ->]. done.
Qed.

(** X14.  On a path, two data items with one base identity whose x-field
    values have no dash in their string forms get the same identity
    exactly when the string forms of both their x-field and their y-field
    values are equal. *)
Theorem getLabelId_path_inj geometry d1 d2 :
  let x1 := ToString (getField (_origin d1) (xScale_field geometry)) in
  let x2 := ToString (getField (_origin d2) (xScale_field geometry)) in
  let y1 := ToString (getField (_origin d1) (yScale_field geometry)) in
  let y2 := ToString (getField (_origin d2) (yScale_field geometry)) in
  type geometry = "path" →
  getElementId geometry d1 = getElementId geometry d2 →
  has_dash x1 = false → has_dash x2 = false →
  getLabelId geometry d1 = getLabelId geometry d2 ↔ x1 = x2 ∧ y1 = y2.
Proof.
  intros x1 x2 y1 y2 Hty Hbase H1 H2. unfold getLabelId. rewrite Hty. simpl.
  fold x1 x2 y1 y2. rewrite Hbase. split.
  - intros H. apply (inj (String.append _)) in H.
    apply (inj (String.append " ")) in H. by apply append_dash_inj.
  - by intros [-> ->].
Qed.

(** ** The further properties on the concrete pass *)

Lemma drawLabelItem_shapes_witness :
  let group' := [labelShape (demo_geometry "interval" true) (demo_attrs 1)
                            (demo_datum (VStr "1991") 20 "Lon");
                 labelShape (demo_geometry "interval" true) (demo_attrs 2)
                            (demo_datum (VStr "1991") 20 "Lon")] in
  [0; 1]%nat = seq (length ([] : Group)) (length (demo_twice demo_single 0)) ∧
  length group' = (length ([] : Group) + length (demo_twice demo_single 0))%nat ∧
  (∀ h s, ([] : Group) !! h = Some s → group' !! h = Some s) ∧
  (∀ k a, demo_twice demo_single 0 !! k = Some a →
     ∃ d, dataItemAt (mappingData demo_single) k = Some d ∧
          group' !! (length ([] : Group) + k)%nat =
          Some (labelShape (demo_geometry "interval" true) a d)).
Proof.
  intros group'.
  apply (drawLabelItem_shapes (demo_geometry "interval" true) demo_twice []
           demo_single 0 group' [0; 1]%nat).
  reflexivity.
Defined.

Lemma renderInner_labels_witness :
  labels (demo_pass true).1.1 `sublist_of`
    seq (length ([] : Group))
        (countItems demo_getLabelItemAttrs (elements (demo_geometry "line" true)) 0) ∧
  NoDup (labels (demo_pass true).1.1) ∧
  (length (labels (demo_pass true).1.1) ≤
   countItems demo_getLabelItemAttrs (elements (demo_geometry "line" true)) 0)%nat ∧
  (keeps_labels demo_adjustLabel →
   labels (demo_pass true).1.1 =
     seq (length ([] : Group))
         (countItems demo_getLabelItemAttrs (elements (demo_geometry "line" true)) 0) ∧
   length (labels (demo_pass true).1.1) =
     countItems demo_getLabelItemAttrs (elements (demo_geometry "line" true)) 0).
Proof.
  apply (renderInner_labels (demo_geometry "line" true) demo_coord
           demo_getDefaultAnimateCfg demo_getLabelItemAttrs demo_adjustLabel
           demo_this [] (demo_pass true).1.1 (demo_pass true).1.2 (demo_pass true).2).
  apply demo_renderInner_Some.
Defined.

Lemma renderInner_snapshot_keys_witness :
  is_Some (labelsCfgMap (demo_pass true).1.1 !! "Lon 1992") ↔
  "Lon 1992" ≠ "__proto__" ∧
  ∃ h s, h ∈ labels (demo_pass true).1.1 ∧ (demo_pass true).1.2 !! h = Some s ∧
         shape_id s = "Lon 1992".
Proof.
  apply (renderInner_snapshot_keys (demo_geometry "line" true) demo_coord
           demo_getDefaultAnimateCfg demo_getLabelItemAttrs demo_adjustLabel
           demo_this [] (demo_pass true).1.1 (demo_pass true).1.2 (demo_pass true).2).
  apply demo_renderInner_Some.
Defined.

Lemma demo_leave_in_log :
  DoAnimate Leave 0 "Lon 1990" demo_fade_out None demo_coord ∈ r_calls demo_reconcile.
Proof.
  apply list_elem_of_lookup. exists 3%nat. vm_compute. reflexivity.
Defined.

Lemma reconcile_phase_sound_witness :
  let c := DoAnimate Leave 0 "Lon 1990" demo_fade_out None demo_coord in
  let cur : Dict TextStyle := {[ "Lon 1991" := demo_attrs 20 ]} in
  (is_animate Appear c = true →
     is_Some (cur !! call_id c) ∧ demo_last !! call_id c = None ∧
     truthy (readSnapshot demo_last (call_id c)) = false) ∧
  (is_animate Update c = true ∨ is_shape_attr c = true →
     is_Some (cur !! call_id c) ∧
     truthy (readSnapshot demo_last (call_id c)) = true ∧
     (proto demo_last = None → call_id c ∉ objectPrototypeMembers →
      is_Some (demo_last !! call_id c))) ∧
  (is_animate Leave c = true ∨ is_add_shape c = true →
     cur !! call_id c = None ∧ is_Some (demo_last !! call_id c)).
Proof.
  intros c cur.
  apply (reconcile_phase_sound (demo_geometry "line" true) demo_coord
           demo_getDefaultAnimateCfg [] demo_last cur c).
  apply demo_leave_in_log.
Defined.

Lemma reconcile_animation_args_witness :
  get (animateCfg (demo_geometry "line" true) demo_coord demo_getDefaultAnimateCfg) Leave
    = Some demo_fade_out ∧
  demo_coord = demo_coord ∧
  ((None : option TextStyle) = None ↔ Leave = Leave) ∧
  (Leave = Update →
   (None : option TextStyle) =
   ({[ "Lon 1991" := demo_attrs 20 ]} : Dict TextStyle) !! "Lon 1990") ∧
  (Leave = Appear → (None : option TextStyle) = Some (getAttrs [] 0)) ∧
  ∃ s, r_group demo_reconcile !! 0%nat = Some s ∧
       shape_id s = "Lon 1990" ∧ destroyed s = false.
Proof.
  apply (reconcile_animation_args (demo_geometry "line" true) demo_coord
           demo_getDefaultAnimateCfg [] demo_last {[ "Lon 1991" := demo_attrs 20 ]}
           Leave 0 "Lon 1990" demo_fade_out None demo_coord).
  apply demo_leave_in_log.
Defined.

Lemma renderInner_keeps_shapes_witness :
  (∀ h s, ([] : Group) !! h = Some s →
     ∃ s', (demo_pass true).1.2 !! h = Some s' ∧ shape_id s' = shape_id s ∧
           destroyed s' = destroyed s) ∧
  length (demo_pass true).1.2 =
    (length ([] : Group) +
     countItems demo_getLabelItemAttrs (elements (demo_geometry "line" true)) 0 +
     match get (animateCfg (demo_geometry "line" true) demo_coord
                  demo_getDefaultAnimateCfg) Leave with
     | Some _ => size (lastLabelsCfgMap demo_this ∖ labelsCfgMap (demo_pass true).1.1)
     | None => 0
     end)%nat.
Proof.
  apply (renderInner_keeps_shapes (demo_geometry "line" true) demo_coord
           demo_getDefaultAnimateCfg demo_getLabelItemAttrs demo_adjustLabel
           demo_this [] (demo_pass true).1.1 (demo_pass true).1.2 (demo_pass true).2).
  apply demo_renderInner_Some.
Defined.

Lemma renderInner_again_witness :
  labels demo_again.1.1 = labels (demo_pass true).1.1 ∧
  labelsCfgMap demo_again.1.1 = labelsCfgMap (demo_pass true).1.1 ∧
  length demo_again.1.2 =
    (length ([] : Group) +
     countItems demo_getLabelItemAttrs (elements (demo_geometry "line" true)) 0)%nat ∧
  (∀ c, c ∈ demo_again.2 →
     is_animate Appear c = false ∧ is_animate Leave c = false ∧
     is_add_shape c = false) ∧
  (∀ id a cu, labelsCfgMap (demo_pass true).1.1 !! id = Some a →
     get (animateCfg (demo_geometry "line" true) demo_coord demo_getDefaultAnimateCfg)
         Update = Some cu →
     ∃ h, calls_of id demo_again.2 =
          [Visit OverCurrent id; ShapeAttr h id a;
           DoAnimate Update h id cu (Some a) demo_coord]).
Proof.
  apply (renderInner_again (demo_geometry "line" true) demo_coord
           demo_getDefaultAnimateCfg demo_getLabelItemAttrs demo_adjustLabel
           demo_this [] (demo_pass true).1.1 (demo_pass true).1.2 (demo_pass true).2
           demo_again.1.1 demo_again.1.2 demo_again.2).
  - apply demo_renderInner_Some.
  - vm_compute; reflexivity.
Defined.

Lemma renderInner_first_witness :
  drawLabels (demo_geometry "line" true) demo_getLabelItemAttrs demo_adjustLabel []
    = Some (mkDState demo_first.1.2 (labels demo_first.1.1)
                     (labelsCfgMap demo_first.1.1)) ∧
  (∀ c, c ∈ demo_first.2 →
     is_animate Leave c = false ∧ is_add_shape c = false ∧
     (∀ h id o, c ≠ ShapeAttr h id o) ∧
     (call_id c ∉ objectPrototypeMembers →
      is_animate Update c = false ∧ is_shape_attr c = false)).
Proof.
  apply (renderInner_first (demo_geometry "line" true) demo_coord
           demo_getDefaultAnimateCfg demo_getLabelItemAttrs demo_adjustLabel
           demo_fresh [] demo_first.1.1 demo_first.1.2 demo_first.2).
  - reflexivity.
  - vm_compute; reflexivity.
Defined.

Lemma renderInner_no_elements_witness :
  ∃ added log,
    renderInner demo_no_elements demo_coord demo_getDefaultAnimateCfg
                demo_getLabelItemAttrs demo_adjustLabel demo_this []
      = Some (mkLabelComponent [] ∅ ∅, [] ++ added, log) ∧
    added ≡ₚ match get (animateCfg demo_no_elements demo_coord
                          demo_getDefaultAnimateCfg) Leave with
             | Some _ => (λ kv, transient kv.1 kv.2)
                           <$> map_to_list (lastLabelsCfgMap demo_this)
             | None => []
             end ∧
    (∀ c, c ∈ log →
       is_animate Appear c = false ∧ is_animate Update c = false ∧
       is_shape_attr c = false).
Proof.
  apply (renderInner_no_elements demo_no_elements demo_coord
           demo_getDefaultAnimateCfg demo_getLabelItemAttrs demo_adjustLabel
           demo_this []).
  reflexivity.
Defined.

Lemma renderInner_animation_off_witness :
  drawLabels (demo_geometry "line" false) demo_getLabelItemAttrs demo_adjustLabel []
    = Some (mkDState (demo_pass false).1.2 (labels (demo_pass false).1.1)
                     (labelsCfgMap (demo_pass false).1.1)) ∧
  (∀ c, c ∈ (demo_pass false).2 → call_shape c = None).
Proof.
  apply (renderInner_animation_off (demo_geometry "line" false) demo_coord
           demo_getDefaultAnimateCfg demo_getLabelItemAttrs demo_adjustLabel
           demo_this [] (demo_pass false).1.1 (demo_pass false).1.2 (demo_pass false).2).
  - reflexivity.
  - apply demo_renderInner_Some.
Defined.

Lemma getLabelId_path_inj_witness :
  getLabelId (demo_geometry "path" true) (demo_point "a" "c") =
  getLabelId (demo_geometry "path" true) (demo_point "a" "d") ↔
  ToString (getField (_origin (demo_point "a" "c")) "year") =
  ToString (getField (_origin (demo_point "a" "d")) "year") ∧
  ToString (getField (_origin (demo_point "a" "c")) "value") =
  ToString (getField (_origin (demo_point "a" "d")) "value").
Proof.
  apply (getLabelId_path_inj (demo_geometry "path" true)
           (demo_point "a" "c") (demo_point "a" "d")).
  - reflexivity.
  - reflexivity.
  - vm_compute; reflexivity.
  - vm_compute; reflexivity.
Defined.
